(** * workflow.util: LockFile, uninterruptible and atomic_writer

    A shallow embedding of the three resource guards of
    [src/lib/workflow/util.py]:

    - [LockFile]: an advisory lock on a sidecar [.lock] file, acquired by
      polling [fcntl.lockf] and released best-effort;
    - [uninterruptible]: a decorator that traps SIGTERM while the wrapped
      function runs;
    - [atomic_writer]: a context manager that writes to a temporary file and
      renames it over the target.

    Python exceptions are modelled by an [outcome] type, the operating
    system by an explicit world that is threaded through every call, and
    the answers of the operating system (clock readings, results of
    [fcntl.lockf], faults of [time.sleep], [os.unlink], [os.rename] and
    [os.remove]) by oracles the theorems quantify over. Times in seconds are binary64
    floating-point numbers, as in Python: the code subtracts them, compares
    them and tests them for zero. *)

From stdpp Require Import gmap strings list pretty.
From Stdlib Require Import Floats Ascii.

#[local] Set Warnings "-inexact-float".

(** ** Python values, exceptions and outcomes *)

Inductive errno : Type :=
| EACCES
| EAGAIN
| ENOENT
| EPERM
| EIO
| EINVAL.

Inductive exn : Type :=
| IOError (e : errno)
| OSError (e : errno)
| TypeError
| AcquisitionError
| SystemExit (code : Z)
| AppError (tag : nat).

Inductive outcome (A : Type) : Type :=
| Return (a : A)
| Raise (e : exn).

Arguments Return {A} a.
Arguments Raise {A} e.

(** [except IOError] and [except (IOError, OSError)] clauses. *)
Definition is_IOError (e : exn) : bool :=
  match e with IOError _ => true | _ => false end.

Definition is_IOError_or_OSError (e : exn) : bool :=
  match e with IOError _ | OSError _ => true | _ => false end.

(** ** LockFile *)

Module Lock.

(** The file object stored in [self._lockfile]: the index of the [open]
    call that produced it. *)
Definition pyfile : Type := nat.

(** Attributes of a [LockFile] instance. [_lock] is the [threading.Event];
    in a single thread it is the flag that [is_set] reads. *)
Record LockFile : Type := mkLockFile {
  lockfile : string;
  _lockfile : option pyfile;
  timeout : float;
  delay : float;
  _lock : bool
}.

(** [LockFile.__init__] (the [atexit] registration has no effect on the
    instance). *)
Definition init (protected_path : string) (timeout delay : float) : LockFile :=
  {| lockfile := protected_path +:+ ".lock";
     _lockfile := None;
     timeout := timeout;
     delay := delay;
     _lock := false |}.

Definition locked (self : LockFile) : bool := _lock self.

Definition set_lockfile (f : option pyfile) (self : LockFile) : LockFile :=
  {| lockfile := lockfile self; _lockfile := f; timeout := timeout self;
     delay := delay self; _lock := _lock self |}.

Definition set_lock (b : bool) (self : LockFile) : LockFile :=
  {| lockfile := lockfile self; _lockfile := _lockfile self;
     timeout := timeout self; delay := delay self; _lock := b |}.

(** What the process has done to the operating system so far. *)
Record World : Type := mkWorld {
  time_calls : nat;                  (* calls of time.time() *)
  lockf_log : list (option errno);   (* results of fcntl.lockf, latest first *)
  unlink_calls : nat;                (* calls of os.unlink *)
  files : gset string;               (* paths present on disk *)
  opened : list string;              (* paths of the files opened, in order *)
  slept : list float                 (* arguments of time.sleep, latest first *)
}.

Definition lockf_calls (w : World) : nat := length (lockf_log w).

(** Truth value of a Python float, [if self.timeout]: it differs from
    zero (a NaN is true, a negative zero is false). *)
Definition truthy (x : float) : bool := negb (PrimFloat.eqb x 0).

(** [errno in (errno.EACCES, errno.EAGAIN)] *)
Definition is_contention (e : errno) : bool :=
  match e with EACCES | EAGAIN => true | _ => false end.

(** The answers of the operating system: [clock n] is the value of the
    [n]-th call of [time.time()]; [lockf_os n] is what the [n]-th call of
    [fcntl.lockf] does ([None]: it succeeds, [Some e]: it raises [IOError]
    with that errno); [sleep_os d] is the errno with which the operating
    system refuses to wait for [d] seconds, for a [d] that is not negative
    (a NaN, or a delay too long for the platform); [unlink_os n] is a
    fault of the [n]-th call of [os.unlink] on a file that exists. *)
Record OS : Type := mkOS {
  clock : nat -> float;
  lockf_os : nat -> option errno;
  sleep_os : float -> option errno;
  unlink_os : nat -> option errno
}.

Section Env.

Variable os : OS.

Definition time_time (w : World) : float * World :=
  (clock os (time_calls w),
   {| time_calls := S (time_calls w); lockf_log := lockf_log w;
      unlink_calls := unlink_calls w; files := files w;
      opened := opened w; slept := slept w |}).

(** The errno with which [time.sleep(d)] fails. Python 2 hands the delay
    to [select], which refuses a negative one with [EINVAL] on every
    platform; whether it accepts another one is up to the operating
    system. *)
Definition sleep_error (d : float) : option errno :=
  if PrimFloat.ltb d 0 then Some EINVAL else sleep_os os d.

(** [time.sleep(d)]: [IOError] and no sleep when the delay is refused.
    What the clock shows after a sleep is up to [clock]. *)
Definition time_sleep (d : float) (w : World) : option exn * World :=
  match sleep_error d with
  | Some e => (Some (IOError e), w)
  | None =>
      (None,
       {| time_calls := time_calls w; lockf_log := lockf_log w;
          unlink_calls := unlink_calls w; files := files w;
          opened := opened w; slept := d :: slept w |})
  end.

(** [open(path, 'a')]: creates the file when it is missing. The parent
    directory is writable (the precondition of [acquire]). *)
Definition open_append (path : string) (w : World) : pyfile * World :=
  (length (opened w),
   {| time_calls := time_calls w; lockf_log := lockf_log w;
      unlink_calls := unlink_calls w; files := {[ path ]} ∪ files w;
      opened := opened w ++ [path]; slept := slept w |}).

(** [fcntl.lockf(f, op)]: on a file object the operating system decides;
    on [None] Python raises [TypeError] before any system call. *)
Definition fcntl_lockf (f : option pyfile) (w : World) : option exn * World :=
  match f with
  | None => (Some TypeError, w)
  | Some _ =>
      let r := lockf_os os (lockf_calls w) in
      (option_map IOError r,
       {| time_calls := time_calls w; lockf_log := r :: lockf_log w;
          unlink_calls := unlink_calls w; files := files w;
          opened := opened w; slept := slept w |})
  end.

(** [os.unlink(path)] *)
Definition os_unlink (path : string) (w : World) : option exn * World :=
  let fault :=
    if decide (path ∈ files w) then unlink_os os (unlink_calls w)
    else Some ENOENT in
  (option_map OSError fault,
   {| time_calls := time_calls w; lockf_log := lockf_log w;
      unlink_calls := S (unlink_calls w);
      files := match fault with
               | None => files w ∖ {[ path ]}
               | Some _ => files w
               end;
      opened := opened w; slept := slept w |}).

(** One pass through the body of [while True] in [acquire]. *)
Inductive pass : Type :=
| Done (r : outcome bool) (self : LockFile) (w : World)
| Again (self : LockFile) (w : World).

(** [time.sleep(self.delay)] at the end of a pass: the loop goes round
    again, unless the sleep raises. Neither sleep of [acquire] is inside a
    [try] that would catch it. *)
Definition sleep_then_again (self : LockFile) (w : World) : pass :=
  match time_sleep (delay self) w with
  | (Some e, w') => Done (Raise e) self w'
  | (None, w') => Again self w'
  end.

Definition acquire_pass (blocking : bool) (start : float)
    (self : LockFile) (w : World) : pass :=
  (* if self.timeout and (time.time() - start) >= self.timeout: *)
  let '(expired, w1) :=
    if truthy (timeout self) then
      let '(now, w1) := time_time w in
      (PrimFloat.leb (timeout self) (PrimFloat.sub now start), w1)
    else (false, w) in
  if expired then Done (Raise AcquisitionError) self w1
  (* if self.locked: time.sleep(self.delay); continue *)
  else if locked self then sleep_then_again self w1
  else
    (* if self._lockfile is None: self._lockfile = open(self.lockfile, 'a') *)
    let '(self1, w2) :=
      match _lockfile self with
      | None =>
          let '(f, w2) := open_append (lockfile self) w1 in
          (set_lockfile (Some f) self, w2)
      | Some _ => (self, w1)
      end in
    (* fcntl.lockf(self._lockfile, fcntl.LOCK_EX | fcntl.LOCK_NB) *)
    let '(r, w3) := fcntl_lockf (_lockfile self1) w2 in
    match r with
    | None => Done (Return true) (set_lock true self1) w3
    | Some (IOError e) =>
        if negb (is_contention e) then Done (Raise (IOError e)) self1 w3
        else if negb blocking then Done (Return false) self1 w3
        else sleep_then_again self1 w3
    | Some e => Done (Raise e) self1 w3
    end.

(** The loop of [acquire]; [fuel] bounds the number of passes, and [None]
    says the loop is still running after [fuel] of them. *)
Fixpoint acquire_loop (fuel : nat) (blocking : bool) (start : float)
    (self : LockFile) (w : World) : option (outcome bool * LockFile * World) :=
  match fuel with
  | O => None
  | S fuel' =>
      match acquire_pass blocking start self w with
      | Done r self' w' => Some (r, self', w')
      | Again self' w' => acquire_loop fuel' blocking start self' w'
      end
  end.

(** [LockFile.acquire] *)
Definition acquire (fuel : nat) (blocking : bool) (self : LockFile)
    (w : World) : option (outcome bool * LockFile * World) :=
  if locked self && negb blocking then Some (Return false, self, w)
  else
    let '(start, w0) := time_time w in
    acquire_loop fuel blocking start self w0.

(** [LockFile.release]. The [return True] of the [finally] clause
    discards an exception that [except IOError] did not catch. *)
Definition release (self : LockFile) (w : World)
    : outcome bool * LockFile * World :=
  if negb (_lock self) then (Return false, self, w)
  else
    (* try: fcntl.lockf(self._lockfile, fcntl.LOCK_UN) except IOError: pass *)
    let '(r, w1) := fcntl_lockf (_lockfile self) w in
    let pending :=
      match r with
      | Some e => if is_IOError e then None else Some e
      | None => None
      end in
    (* finally: *)
    let self1 := set_lockfile None (set_lock false self) in
    let '(r2, w2) := os_unlink (lockfile self1) w1 in
    match r2 with
    | Some e =>
        if is_IOError_or_OSError e then (Return true, self1, w2)
        else (Raise e, self1, w2)
    | None =>
        (* return True, whatever is pending *)
        match pending with
        | Some _ | None => (Return true, self1, w2)
        end
    end.

(** [release] called [n] times in a row; the results, first call first. *)
Fixpoint release_many (n : nat) (self : LockFile) (w : World)
    : list (outcome bool) * LockFile * World :=
  match n with
  | O => ([], self, w)
  | S n' =>
      let '(r, self1, w1) := release self w in
      let '(rs, self2, w2) := release_many n' self1 w1 in
      (r :: rs, self2, w2)
  end.

(** [with self: body]. [__enter__] calls [self.acquire()]; [__exit__] calls
    [self.release()] and returns [None], so an exception of the body goes
    on to the caller. The body works on the world and leaves the handle
    alone. *)
Definition with_lock {A : Type} (fuel : nat) (self : LockFile)
    (body : World -> outcome A * World) (w : World)
    : option (outcome A * LockFile * World) :=
  match acquire fuel true self w with
  | None => None
  | Some (Raise e, self1, w1) => Some (Raise e, self1, w1)
  | Some (Return _, self1, w1) =>
      let '(r, w2) := body w1 in
      let '(r', self2, w3) := release self1 w2 in
      match r' with
      | Raise e => Some (Raise e, self2, w3)
      | Return _ => Some (r, self2, w3)
      end
  end.

(** A caller that uses one handle for a sequence of [acquire] and
    [release] calls, whatever they return or raise; [None] when one of the
    [acquire] calls is still running after its fuel. *)
Inductive op : Type :=
| OpAcquire (fuel : nat) (blocking : bool)
| OpRelease.

Fixpoint run_ops (ops : list op) (self : LockFile) (w : World)
    : option (LockFile * World) :=
  match ops with
  | [] => Some (self, w)
  | OpAcquire fuel blocking :: ops' =>
      match acquire fuel blocking self w with
      | None => None
      | Some (_, self1, w1) => run_ops ops' self1 w1
      end
  | OpRelease :: ops' =>
      let '(_, self1, w1) := release self w in
      run_ops ops' self1 w1
  end.

End Env.

(** *** Vocabulary of the statements about [acquire] *)

(** The timeout test of a pass that started at [start] and reads the clock
    with its [n]-th call. *)
Definition expired (os : OS) (self : LockFile) (start : float) (n : nat) : bool :=
  truthy (timeout self)
  && PrimFloat.leb (timeout self) (PrimFloat.sub (clock os n) start).

(** The [n]-th call of [fcntl.lockf] reports that the lock is held
    elsewhere. *)
Definition contended (os : OS) (n : nat) : bool :=
  match lockf_os os n with
  | Some e => is_contention e
  | None => false
  end.

(** [time.sleep(self.delay)] does not raise. *)
Definition can_sleep (os : OS) (self : LockFile) : bool :=
  match sleep_error os (delay self) with
  | None => true
  | Some _ => false
  end.

(** A pass that does not time out goes round again: the handle is locked,
    or the call is blocking and the lock is held elsewhere, and in either
    case the sleep that follows does not raise. *)
Definition goes_round (os : OS) (blocking : bool) (self : LockFile) (n : nat)
    : bool :=
  (locked self || (blocking && contended os n)) && can_sleep os self.

(** Seconds between the start of a call of [acquire] made in world [w] and
    the clock reading of its pass [k] (the first pass is pass 0), when
    [timeout] is set: the difference the code computes. *)
Definition elapsed (os : OS) (w : World) (k : nat) : float :=
  PrimFloat.sub (clock os (S (time_calls w) + k)) (clock os (time_calls w)).

(** The comparison [elapsed >= self.timeout] of pass [k]. *)
Definition reached (os : OS) (self : LockFile) (w : World) (k : nat) : bool :=
  PrimFloat.leb (timeout self) (elapsed os w k).

(** The world after the timeout test of a pass: the clock was read when
    [timeout] is set. *)
Definition after_test (os : OS) (self : LockFile) (w : World) : World :=
  if truthy (timeout self) then snd (time_time os w) else w.

(** The result of [acquire] is the timeout error. *)
Definition times_out (r : option (outcome bool * LockFile * World)) : Prop :=
  exists self' w', r = Some (Raise AcquisitionError, self', w').

(** The timeout test of pass [k] of a call of [acquire] made in world [w]
    lets the pass go on. *)
Definition in_time (os : OS) (self : LockFile) (w : World) (k : nat) : Prop :=
  truthy (timeout self) = false \/ reached os self w k = false.

(** A handle that says it is locked has a file object. *)
Definition holds_file (self : LockFile) : Prop :=
  locked self = true -> is_Some (_lockfile self).

(** What [acquire] may change: the handle keeps its path, timeout and
    delay; no file is unlinked; the only file that may appear is the lock
    file; a handle that has a file object keeps it and opens nothing. *)
Definition acquire_frame (self : LockFile) (w : World)
    (self' : LockFile) (w' : World) : Prop :=
  lockfile self' = lockfile self /\
  timeout self' = timeout self /\
  delay self' = delay self /\
  unlink_calls w' = unlink_calls w /\
  files w ⊆ files w' /\
  files w' ⊆ {[ lockfile self ]} ∪ files w /\
  (forall f, _lockfile self = Some f ->
             _lockfile self' = Some f /\ opened w' = opened w /\
             files w' = files w).

(** *** Runs used to exercise the model *)

(** A world in which nothing has happened yet. *)
Definition fresh : World :=
  {| time_calls := 0; lockf_log := []; unlink_calls := 0; files := ∅;
     opened := []; slept := [] |}.

(** A clock whose [n]-th reading is [n / 10] seconds. *)
Definition ticking (n : nat) : float :=
  PrimFloat.div (PrimFloat.of_uint63 (Uint63.of_Z (Z.of_nat n))) 10.

(** The lock is free, and nothing fails. *)
Definition os_free : OS :=
  {| clock := ticking; lockf_os := fun _ => None;
     sleep_os := fun _ => None; unlink_os := fun _ => None |}.

(** Another process holds the lock throughout. *)
Definition os_busy : OS :=
  {| clock := ticking; lockf_os := fun _ => Some EAGAIN;
     sleep_os := fun _ => None; unlink_os := fun _ => None |}.

(** Another process holds the lock during the first two attempts. *)
Definition os_busy_twice : OS :=
  {| clock := ticking;
     lockf_os := fun n => if (n <? 2)%nat then Some EAGAIN else None;
     sleep_os := fun _ => None; unlink_os := fun _ => None |}.

(** Unlocking and unlinking both fail. *)
Definition os_faulty : OS :=
  {| clock := ticking; lockf_os := fun _ => Some EIO;
     sleep_os := fun _ => None; unlink_os := fun _ => Some EPERM |}.

(** [LockFile('/tmp/x', timeout=0.2, delay=0.05)] *)
Definition lock_x : LockFile := init "/tmp/x" 0.2 0.05.

(** [LockFile('/tmp/x', timeout=-1.0)] *)
Definition lock_neg : LockFile := init "/tmp/x" (-1) 0.05.

(** [LockFile('/tmp/x')]: no timeout. *)
Definition lock_forever : LockFile := init "/tmp/x" 0 0.05.


(** [LockFile('/tmp/x', timeout=1.0, delay=-0.05)] *)
Definition lock_neg_delay : LockFile := init "/tmp/x" 1 (-0.05).

(** The same handle once it has opened its lock file, and while it holds
    the lock. *)
Definition lock_x_open : LockFile := set_lockfile (Some 0%nat) lock_x.

Definition lock_x_held : LockFile := set_lock true lock_x_open.

Definition lock_forever_held : LockFile :=
  set_lock true (set_lockfile (Some 0%nat) lock_forever).

(** The world after [lock_x.acquire()] succeeded at its first attempt. *)
Definition after_acquire : World :=
  {| time_calls := 2; lockf_log := [None]; unlink_calls := 0;
     files := {[ "/tmp/x.lock" ]}; opened := ["/tmp/x.lock"]; slept := [] |}.

(** The world after [lock_x.acquire()] timed out on a lock held elsewhere:
    one attempt and one sleep, before the third clock reading shows that
    0.2 s have passed. *)
Definition after_timeout : World :=
  {| time_calls := 3; lockf_log := [Some EAGAIN]; unlink_calls := 0;
     files := {[ "/tmp/x.lock" ]}; opened := ["/tmp/x.lock"];
     slept := [0.05%float] |}.

(** The same world once the holder of the lock has released it, which
    deletes the lock file; the handle that timed out still has the file
    object it opened. *)
Definition after_unlink : World :=
  {| time_calls := 3; lockf_log := [Some EAGAIN]; unlink_calls := 0;
     files := ∅; opened := ["/tmp/x.lock"]; slept := [0.05%float] |}.

End Lock.

(** ** uninterruptible *)

Module Signal.

Definition SIGTERM : Z := 15.

(** The stack frame a signal handler receives. *)
Definition frame : Type := nat.

(** Values a wrapped function returns. *)
Inductive pyval : Type :=
| PyNone
| PyInt (n : Z)
| PyStr (s : string).

(** What [signal.getsignal(signal.SIGTERM)] returns in a process whose
    disposition was set from Python or never changed: the two special values,
    a callable of the application, or the bound method [signal_handler] of
    the decorator. *)
Inductive handler : Type :=
| SIG_DFL
| SIG_IGN
| PyHandler (id : nat)
| GuardHandler.

Definition callable (h : handler) : bool :=
  match h with
  | PyHandler _ | GuardHandler => true
  | SIG_DFL | SIG_IGN => false
  end.

Definition is_SIG_DFL (h : handler) : bool :=
  match h with SIG_DFL => true | _ => false end.

(** Attributes of an [uninterruptible] instance besides [func];
    [old_signal_handler] exists once [__call__] has run. *)
Record uninterruptible : Type := mkGuard {
  _caught_signal : option (Z * frame);
  old_signal_handler : option handler
}.

(** The process: the disposition of SIGTERM and the state the application
    code works on. *)
Record Process (St : Type) : Type := mkProcess {
  sigterm : handler;
  state : St
}.

Arguments mkProcess {St} sigterm state.
Arguments sigterm {St} p.
Arguments state {St} p.

(** The application code: the wrapped function, and the handlers the
    application has installed, by identifier. The wrapped function works
    on the state of the application; a handler works on the whole process,
    so it may install another handler when it runs. *)
Record App (St Args : Type) : Type := mkApp {
  func : Args -> St -> outcome pyval * St;
  run_handler : nat -> Z -> frame -> Process St -> outcome pyval * Process St
}.

Arguments mkApp {St Args} func run_handler.
Arguments func {St Args} a args st.
Arguments run_handler {St Args} a id signum fr p.

Section Guard.

Context {St Args : Type}.
Variable app : App St Args.

(** [uninterruptible.__init__] *)
Definition init : uninterruptible :=
  {| _caught_signal := None; old_signal_handler := None |}.

(** [uninterruptible.signal_handler] *)
Definition signal_handler (self : uninterruptible) (signum : Z) (fr : frame)
    : uninterruptible :=
  {| _caught_signal := Some (signum, fr);
     old_signal_handler := old_signal_handler self |}.

(** [signal.getsignal(signal.SIGTERM)] and [signal.signal(signal.SIGTERM, h)] *)
Definition signal_getsignal (p : Process St) : handler := sigterm p.

Definition signal_signal (h : handler) (p : Process St) : Process St :=
  {| sigterm := h; state := state p |}.

(** Calling a handler object [h(signum, frame)]. *)
Definition invoke (h : handler) (signum : Z) (fr : frame)
    (self : uninterruptible) (p : Process St)
    : outcome pyval * uninterruptible * Process St :=
  match h with
  | PyHandler id =>
      let '(r, p') := run_handler app id signum fr p in
      (r, self, p')
  | GuardHandler => (Return PyNone, signal_handler self signum fr, p)
  | SIG_DFL | SIG_IGN => (Raise TypeError, self, p)
  end.

(** [uninterruptible.__call__]. [arrivals] are the frames at which SIGTERM
    reaches the process while [self.func] runs, in order; the handler
    installed at that time is [self.signal_handler]. *)
Definition call (self : uninterruptible) (args : Args) (arrivals : list frame)
    (p : Process St) : outcome pyval * uninterruptible * Process St :=
  (* self._caught_signal = None *)
  let self1 :=
    {| _caught_signal := None; old_signal_handler := old_signal_handler self |} in
  (* self.old_signal_handler = signal.getsignal(signal.SIGTERM) *)
  let old := signal_getsignal p in
  let self2 :=
    {| _caught_signal := _caught_signal self1; old_signal_handler := Some old |} in
  (* signal.signal(signal.SIGTERM, self.signal_handler) *)
  let p1 := signal_signal GuardHandler p in
  (* self.func( *args, **kwargs) *)
  let '(r, st) := func app args (state p1) in
  let self3 := fold_left (fun g fr => signal_handler g SIGTERM fr) arrivals self2 in
  let p2 := {| sigterm := sigterm p1; state := st |} in
  match r with
  | Raise e => (Raise e, self3, p2)
  | Return _ =>
      (* signal.signal(signal.SIGTERM, self.old_signal_handler) *)
      let p3 := signal_signal old p2 in
      match _caught_signal self3 with
      | None => (Return PyNone, self3, p3)
      | Some (signum, fr) =>
          if callable old then
            let '(r', self4, p4) := invoke old signum fr self3 p3 in
            match r' with
            | Raise e => (Raise e, self4, p4)
            | Return _ => (Return PyNone, self4, p4)
            end
          else if is_SIG_DFL old then (Raise (SystemExit 0), self3, p3)
          else (Return PyNone, self3, p3)
      end
  end.

End Guard.

(** *** Runs used to exercise the model *)

(** An application whose state is a log of what ran. *)
Inductive entry : Type :=
| Worked (arg : Z)
| Handled (id : nat) (signum : Z) (fr : frame).

(** The wrapped function records its argument and returns its double; the
    argument [0] makes it raise. Handlers record their call. *)
Definition logging_app : App (list entry) Z :=
  {| func := fun arg st =>
       if (arg =? 0)%Z then (Raise (AppError 1), Worked arg :: st)
       else (Return (PyInt (2 * arg)), Worked arg :: st);
     run_handler := fun id signum fr p =>
       (Return PyNone,
        {| sigterm := sigterm p; state := Handled id signum fr :: state p |}) |}.

(** The same application, whose handlers make the process ignore SIGTERM
    from then on. *)
Definition ignoring_app : App (list entry) Z :=
  {| func := func logging_app;
     run_handler := fun id signum fr p =>
       (Return PyNone,
        {| sigterm := SIG_IGN; state := Handled id signum fr :: state p |}) |}.

Definition idle (h : handler) : Process (list entry) :=
  {| sigterm := h; state := [] |}.

End Signal.

(** ** atomic_writer *)

Module Atomic.

(** The write modes of [open]: ['w'] / ['wb'] truncate, ['a'] / ['ab'] keep
    what the file holds. *)
Inductive mode : Type :=
| ModeW
| ModeA.

(** The files on disk: path to content. *)
Abbreviation FS := (gmap string string).

(** A file object open for writing. *)
Record pyfile : Type := mkFile {
  name : string;
  fmode : mode
}.

(** [fpath + '.{}.tmp'.format(os.getpid())] *)
Definition temppath (pid : N) (fpath : string) : string :=
  fpath +:+ ("." +:+ pretty pid +:+ ".tmp").

(** [open(path, mode)] for a write mode, in a writable directory. *)
Definition py_open (path : string) (m : mode) (fs : FS) : pyfile * FS :=
  ({| name := path; fmode := m |},
   match m, fs !! path with
   | ModeA, Some _ => fs
   | _, _ => <[path := ""]> fs
   end).

(** [fp.write(data)] *)
Definition fp_write (fp : pyfile) (data : string) (fs : FS) : FS :=
  alter (fun content => content +:+ data) (name fp) fs.

(** [os.rename(src, dst)]; [fault] is an error of the operating system on
    an existing source. *)
Definition os_rename (fault : option errno) (src dst : string) (fs : FS)
    : option exn * FS :=
  match fs !! src, fault with
  | None, _ => (Some (OSError ENOENT), fs)
  | Some _, Some e => (Some (OSError e), fs)
  | Some content, None => (None, <[dst := content]> (delete src fs))
  end.

(** [os.remove(path)]; [fault] is an error of the operating system on
    an existing file. *)
Definition os_remove (fault : option errno) (path : string) (fs : FS)
    : option exn * FS :=
  match fs !! path, fault with
  | None, _ => (Some (OSError ENOENT), fs)
  | Some _, Some e => (Some (OSError e), fs)
  | Some _, None => (None, delete path fs)
  end.

(** The block under [with atomic_writer(...) as fp]: any code that is
    given the handle and works on the disk, and then finishes or raises. *)
Definition body : Type := pyfile -> FS -> option exn * FS.

(** A block that only writes [writes] through [fp], then finishes or
    raises. *)
Record block : Type := mkBlock {
  writes : list string;
  raises : option exn
}.

Definition run_block (b : block) : body :=
  fun fp fs => (raises b, fold_left (fun fs data => fp_write fp data fs) (writes b) fs).

(** [atomic_writer] up to its [yield]: the handle the block receives. *)
Definition atomic_writer_enter (pid : N) (fpath : string) (m : mode) (fs : FS)
    : pyfile * FS :=
  py_open (temppath pid fpath) m fs.

(** [atomic_writer] from its [yield] on; [thrown] is the exception the block
    raised, which the context manager throws into the generator at the
    [yield]. The result is the exception that leaves the generator. *)
Definition atomic_writer_exit (pid : N) (fpath : string)
    (rename_fault remove_fault : option errno) (thrown : option exn) (fs : FS)
    : option exn * FS :=
  let tmp := temppath pid fpath in
  (* try: yield fp; os.rename(temppath, fpath) *)
  let '(pending, fs1) :=
    match thrown with
    | Some e => (Some e, fs)
    | None => os_rename rename_fault tmp fpath fs
    end in
  (* finally: try: os.remove(temppath) except (OSError, IOError): pass *)
  let '(r, fs2) := os_remove remove_fault tmp fs1 in
  match r with
  | Some e => if is_IOError_or_OSError e then (pending, fs2) else (Some e, fs2)
  | None => (pending, fs2)
  end.

(** [with atomic_writer(fpath, mode) as fp: block] *)
Definition with_atomic_writer (pid : N) (fpath : string) (m : mode)
    (rename_fault remove_fault : option errno) (b : body) (fs : FS)
    : outcome unit * FS :=
  let '(fp, fs1) := atomic_writer_enter pid fpath m fs in
  let '(thrown, fs2) := b fp fs1 in
  let '(r, fs3) :=
    atomic_writer_exit pid fpath rename_fault remove_fault thrown fs2 in
  (match r with Some e => Raise e | None => Return tt end, fs3).

(** *** Vocabulary of the statements about [atomic_writer] *)

(** What the temporary file holds when the block starts. *)
Definition initial_content (m : mode) (fs : FS) (path : string) : string :=
  match m, fs !! path with
  | ModeA, Some content => content
  | _, _ => ""
  end.

(** What a file that held [content] holds after the writes [ws]. *)
Definition written (ws : list string) (content : string) : string :=
  fold_left (fun c data => c +:+ data) ws content.

(** *** Runs used to exercise the model *)

(** A disk that holds the settings file of a workflow. *)
Definition disk : FS := {[ "settings.json" := "old" ]}.

(** A block that writes two chunks and finishes, and one that writes a
    chunk and raises. *)
Definition block_ok : block := {| writes := ["ne"; "w"]; raises := None |}.

Definition block_fails : block :=
  {| writes := ["ne"]; raises := Some (AppError 7) |}.

(** A block that writes a chunk and then removes the target itself. *)
Definition body_removes_target : body :=
  fun fp fs => (None, delete "settings.json" (fp_write fp "new" fs)).

End Atomic.

(** ** AppleScript helpers, external commands and application lookup *)

Module Script.

(** Python 2 has two kinds of text: [unicode] objects and [str] objects
    (bytes). The texts a caller passes to [applescriptify], [run_trigger],
    [set_config] and [unset_config] are [unicode] objects, as the docstring
    of [applescriptify] asks; the templates, the values of environment
    variables and the output of commands are [str] objects. Where the code
    mixes the two kinds Python converts with the ASCII codec, and raises
    [UnicodeDecodeError] or [UnicodeEncodeError] on a character outside
    ASCII. *)

Definition dquote : ascii := "034"%char.

Definition newline : ascii := "010"%char.

Definition q : string := String dquote EmptyString.

Definition nl : string := String newline EmptyString.

(** [s.replace(c, new)] for a pattern [c] of one character: every
    occurrence is replaced, from left to right. *)
Fixpoint replace_char (c : ascii) (new s : string) : string :=
  match s with
  | EmptyString => EmptyString
  | String a s' =>
      if Ascii.eqb a c then new +:+ replace_char c new s'
      else String a (replace_char c new s')
  end.

(** The replacement text of [applescriptify]: a quote, [ & quote & ] and a
    quote. *)
Definition quote_expr : string := q +:+ " & quote & " +:+ q.

(** [applescriptify] on a [unicode] object. *)
Definition applescriptify (s : string) : string :=
  replace_char dquote quote_expr s.

(** The two kinds of text. *)
Inductive text : Type :=
| Unicode (s : string)
| Str (s : string).

(** Every character of the text is in ASCII: below 128. *)
Fixpoint is_ascii (s : string) : bool :=
  match s with
  | EmptyString => true
  | String (Ascii _ _ _ _ _ _ _ b7) s' => negb b7 && is_ascii s'
  end.

(** [applescriptify] on either kind: [s.replace] with [unicode] arguments
    first decodes a [str] object as ASCII, and the result is a [unicode]
    object. [None] stands for [UnicodeDecodeError]. *)
Definition applescriptify_text (t : text) : option string :=
  match t with
  | Unicode s => Some (applescriptify s)
  | Str s => if is_ascii s then Some (applescriptify s) else None
  end.

(** A field of [template.format(...)] for a [str] template: a [str]
    object is pasted as it is, a [unicode] object is encoded as ASCII.
    [None] stands for [UnicodeEncodeError]. *)
Definition format_field (t : text) : option string :=
  match t with
  | Str s => Some s
  | Unicode s => if is_ascii s then Some s else None
  end.

(** [AS_TRIGGER.format(name=name, bundleid=bundleid, arg=arg)] *)
Definition AS_TRIGGER (name bundleid arg : string) : string :=
  nl +:+ "tell application " +:+ q +:+ "Alfred" +:+ q +:+ nl +:+
  "run trigger " +:+ q +:+ name +:+ q +:+
  " in workflow " +:+ q +:+ bundleid +:+ q +:+ " " +:+ arg +:+ nl +:+
  "end tell" +:+ nl.

(** [AS_CONFIG_SET.format(name=name, bundleid=bundleid, value=value,
    export=export)] *)
Definition AS_CONFIG_SET (name value bundleid export : string) : string :=
  nl +:+ "tell application " +:+ q +:+ "Alfred" +:+ q +:+ nl +:+
  "set configuration " +:+ q +:+ name +:+ q +:+
  " to value " +:+ q +:+ value +:+ q +:+
  " in workflow " +:+ q +:+ bundleid +:+ q +:+ " " +:+ export +:+ nl +:+
  "end tell" +:+ nl.

(** [AS_CONFIG_UNSET.format(name=name, bundleid=bundleid)] *)
Definition AS_CONFIG_UNSET (name bundleid : string) : string :=
  nl +:+ "tell application " +:+ q +:+ "Alfred" +:+ q +:+ nl +:+
  "remove configuration " +:+ q +:+ name +:+ q +:+
  " in workflow " +:+ q +:+ bundleid +:+ q +:+ nl +:+
  "end tell" +:+ nl.

(** The machine the workflow runs on: the environment variables, the paths
    that exist, the expansion of [~], and what a command prints or raises
    when [subprocess.check_output] runs it. *)
Record Host : Type := mkHost {
  getenv : string -> option string;
  path_exists : string -> bool;
  expanduser : string -> string;
  check_output : list string -> outcome string
}.

(** What a function of this part does: its result, an exception raised
    before any command runs, or the exception of a command it ran. *)
Inductive result (A : Type) : Type :=
| Ok (a : A)
| AttributeError
| UnicodeDecodeError
| UnicodeEncodeError
| Failed (e : exn).

Arguments Ok {A} a.
Arguments AttributeError {A}.
Arguments UnicodeDecodeError {A}.
Arguments UnicodeEncodeError {A}.
Arguments Failed {A} e.

(** Truth value of an optional text: [None] and the empty text are false. *)
Definition truthy (v : option string) : bool :=
  match v with
  | Some EmptyString | None => false
  | Some _ => true
  end.

(** A field of [format] that may be [None], which prints as [None]. *)
Definition format_opt (v : option text) : option string :=
  match v with
  | Some t => format_field t
  | None => Some "None"
  end.

Section OnHost.

Variable host : Host.

(** [run_command]: the arguments are [str] objects, which [utf8ify]
    returns unchanged. The second component lists the commands run. *)
Definition run_command (cmd : list string)
    : outcome string * list (list string) :=
  (check_output host cmd, [cmd]).

(** [run_applescript(script, *args, lang=lang)] *)
Definition run_applescript (lang : option string) (script : string)
    (args : list string) : outcome string * list (list string) :=
  let cmd := ["/usr/bin/osascript"; "-l";
              match lang with
              | Some l => l
              | None => "AppleScript"
              end] in
  let cmd :=
    if path_exists host script then cmd ++ [script]
    else cmd ++ ["-e"; script] in
  run_command (cmd ++ args).

(** [run_jxa] *)
Definition run_jxa (script : string) (args : list string)
    : outcome string * list (list string) :=
  run_applescript (Some "JavaScript") script args.

(** [if not bundleid: bundleid = os.getenv('alfred_workflow_bundleid')]:
    the caller's [unicode] object, or the [str] object of the
    environment. *)
Definition bundle_or_env (bundleid : option string) : option text :=
  if truthy bundleid then option_map Unicode bundleid
  else option_map Str (getenv host "alfred_workflow_bundleid").

(** The functions below call [run_applescript] for its effect and return
    [None]. *)
Definition run_script (script : string) : result unit * list (list string) :=
  let '(r, ran) := run_applescript None script [] in
  (match r with
   | Return _ => Ok tt
   | Raise e => Failed e
   end, ran).

(** [run_trigger]. Both calls of [format] raise [UnicodeEncodeError] on a
    [unicode] field outside ASCII. *)
Definition run_trigger (name : string) (bundleid arg : option string)
    : result unit * list (list string) :=
  let bundleid := bundle_or_env bundleid in
  (* arg = 'with argument "{}"'.format(applescriptify(arg)) *)
  let arg :=
    match arg with
    | Some a =>
        if truthy arg
        then
          match format_field (Unicode (applescriptify a)) with
          | Some a' => Some ("with argument " +:+ q +:+ a' +:+ q)
          | None => None
          end
        else Some EmptyString
    | None => Some EmptyString
    end in
  match arg with
  | None => (UnicodeEncodeError, [])
  | Some arg =>
      (* AS_TRIGGER.format(name=name, bundleid=bundleid, arg=arg) *)
      match format_field (Unicode name), format_opt bundleid with
      | Some name, Some bundleid => run_script (AS_TRIGGER name bundleid arg)
      | _, _ => (UnicodeEncodeError, [])
      end
  end.

(** [set_config]. [applescriptify(bundleid)] raises [AttributeError] on
    [None] and [UnicodeDecodeError] on a [str] object outside ASCII;
    [format] then raises [UnicodeEncodeError] on a field outside ASCII. *)
Definition set_config (name value : string) (bundleid : option string)
    (exportable : bool) : result unit * list (list string) :=
  let bundleid := bundle_or_env bundleid in
  let name := applescriptify name in
  let value := applescriptify value in
  match bundleid with
  | None => (AttributeError, [])
  | Some b =>
      match applescriptify_text b with
      | None => (UnicodeDecodeError, [])
      | Some bundleid =>
          let export :=
            if exportable then "exportable true" else "exportable false" in
          match format_field (Unicode name), format_field (Unicode value),
                format_field (Unicode bundleid) with
          | Some name, Some value, Some bundleid =>
              run_script (AS_CONFIG_SET name value bundleid export)
          | _, _, _ => (UnicodeEncodeError, [])
          end
      end
  end.

(** [unset_config] *)
Definition unset_config (name : string) (bundleid : option string)
    : result unit * list (list string) :=
  let bundleid := bundle_or_env bundleid in
  let name := applescriptify name in
  match bundleid with
  | None => (AttributeError, [])
  | Some b =>
      match applescriptify_text b with
      | None => (UnicodeDecodeError, [])
      | Some bundleid =>
          match format_field (Unicode name),
                format_field (Unicode bundleid) with
          | Some name, Some bundleid =>
              run_script (AS_CONFIG_UNSET name bundleid)
          | _, _ => (UnicodeEncodeError, [])
          end
      end
  end.

(** The whitespace that [str.strip()] removes. *)
Definition is_space (a : ascii) : bool :=
  match a with
  | "009"%char | "010"%char | "011"%char | "012"%char | "013"%char
  | " "%char => true
  | _ => false
  end.

Fixpoint lstrip (s : string) : string :=
  match s with
  | EmptyString => EmptyString
  | String a s' => if is_space a then lstrip s' else s
  end.

Fixpoint rstrip (s : string) : string :=
  match s with
  | EmptyString => EmptyString
  | String a s' =>
      match rstrip s' with
      | EmptyString => if is_space a then EmptyString else String a EmptyString
      | r => String a r
      end
  end.

(** [s.strip()] *)
Definition strip (s : string) : string := rstrip (lstrip s).

(** [s.split('\n')[0]]: the text before the first newline. *)
Fixpoint first_line (s : string) : string :=
  match s with
  | EmptyString => EmptyString
  | String a s' =>
      if Ascii.eqb a newline then EmptyString else String a (first_line s')
  end.

Record AppInfo : Type := mkAppInfo {
  name : string;
  path : string;
  bundleid : string
}.

(** The command that looks an application up by name. *)
Definition mdfind_cmd (app_name : string) : list string :=
  ["mdfind"; "-onlyin"; "/Applications";
   "-onlyin"; expanduser host "~/Applications";
   "(kMDItemContentTypeTree == com.apple.application &&" +:+
   "(kMDItemDisplayName == " +:+ q +:+ app_name +:+ q +:+
   " || kMDItemFSName == " +:+ q +:+ app_name +:+ ".app" +:+ q +:+ "))"].

(** The command that reads the bundle identifier of an application. *)
Definition mdls_cmd (app_path : string) : list string :=
  ["mdls"; "-raw"; "-name"; "kMDItemCFBundleIdentifier"; app_path].

(** [appinfo] for a name given as a [str] object, which [format] pastes as
    it is; on the ASCII output of the two commands [unicodify] changes
    nothing. *)
Definition appinfo (app_name : string)
    : result (option AppInfo) * list (list string) :=
  let '(r, ran) := run_command (mdfind_cmd app_name) in
  match r with
  | Raise e => (Failed e, ran)
  | Return out =>
      let output := strip out in
      match output with
      | EmptyString => (Ok None, ran)
      | _ =>
          let app_path := first_line output in
          let '(r2, ran2) := run_command (mdls_cmd app_path) in
          match r2 with
          | Raise e => (Failed e, ran ++ ran2)
          | Return out2 =>
              match strip out2 with
              | EmptyString => (Ok None, ran ++ ran2)
              | bid =>
                  (Ok (Some {| name := app_name; path := app_path;
                               bundleid := bid |}), ran ++ ran2)
              end
          end
      end
  end.

End OnHost.

(** *** Vocabulary of the statements *)

(** The characters of a text of either kind. *)
Definition chars (t : text) : string :=
  match t with Unicode s | Str s => s end.

(** Occurrences of a character in a text. *)
Fixpoint count_char (c : ascii) (s : string) : nat :=
  match s with
  | EmptyString => 0
  | String a s' => (if Ascii.eqb a c then 1 else 0) + count_char c s'
  end.

(** The text holds nothing but whitespace. *)
Fixpoint blank (s : string) : bool :=
  match s with
  | EmptyString => true
  | String a s' => is_space a && blank s'
  end.

(** The [osascript] command that runs AppleScript code, or the file of
    that name when there is one. *)
Definition osascript (host : Host) (script : string) : list string :=
  ["/usr/bin/osascript"; "-l"; "AppleScript"] ++
  (if path_exists host script then [script] else ["-e"; script]).

(** *** Runs used to exercise the model *)

(** A host where [mdfind] finds Safari, and no environment variable is
    set. *)
Definition mac : Host :=
  {| getenv := fun _ => None;
     path_exists := fun _ => false;
     expanduser := fun p => "/Users/me" +:+ String.substring 1 (String.length p) p;
     check_output := fun cmd =>
       match cmd with
       | "mdfind" :: _ =>
           Return ("/Applications/Safari.app" +:+ nl +:+
                   "/Users/me/Applications/Safari.app" +:+ nl)
       | "mdls" :: _ => Return "com.apple.Safari"
       | _ => Return EmptyString
       end |}.

(** A host where [mdfind] finds nothing and prints an empty line. *)
Definition mac_without : Host :=
  {| getenv := fun _ => None;
     path_exists := fun _ => false;
     expanduser := fun p => p;
     check_output := fun _ => Return nl |}.

(** A host whose environment holds a bundle id outside ASCII. *)
Definition mac_latin : Host :=
  {| getenv := fun v =>
       if String.eqb v "alfred_workflow_bundleid"
       then Some (String "233"%char "cole")
       else None;
     path_exists := fun _ => false;
     expanduser := fun p => p;
     check_output := fun _ => Return EmptyString |}.

End Script.

(** * Properties of LockFile *)

Section LockFacts.

Import Lock.

Variable os : OS.

(** Closes the conjuncts left once a pass has been evaluated. *)
Ltac split_pass :=
  repeat split; cbn; intros; try reflexivity; try assumption; try congruence.

(** The world after the timeout test of a pass. *)
Lemma acquire_pass_expired (b : bool) (start : float) (self : LockFile) (w : World) :
  expired os self start (time_calls w) = true ->
  acquire_pass os b start self w
  = Done (Raise AcquisitionError) self (snd (time_time os w)).
Proof.
  unfold expired, acquire_pass. intros [Ht Hle]%andb_true_iff.
  rewrite Ht. cbn. rewrite Hle. reflexivity.
Qed.

(** A pass whose timeout test fails either goes round again, one clock
    reading and (for an unlocked handle) one [lockf] call later, or ends
    the call with something else than the timeout error. *)
Lemma acquire_pass_not_expired (b : bool) (start : float) (self : LockFile) (w : World) :
  expired os self start (time_calls w) = false ->
  if goes_round os b self (lockf_calls w) then
    exists self' w',
      acquire_pass os b start self w = Again self' w' /\
      timeout self' = timeout self /\
      delay self' = delay self /\
      locked self' = locked self /\
      (truthy (timeout self) = true -> time_calls w' = S (time_calls w)) /\
      lockf_calls w' = (if locked self then lockf_calls w else S (lockf_calls w))
  else
    exists r self' w',
      acquire_pass os b start self w = Done r self' w' /\
      r <> Raise AcquisitionError.
Proof.
  unfold expired, goes_round, contended, can_sleep, acquire_pass,
    sleep_then_again, time_sleep, locked.
  intros He.
  destruct (truthy (timeout self)) eqn:Ht; cbn in He |- *; rewrite ?He;
    destruct (_lock self) eqn:Hl; cbn;
    destruct (sleep_error os (delay self)) as [se|] eqn:Hd; cbn;
    try solve [eexists _, _; split_pass];
    try solve [eexists _, _, _; split; [reflexivity | discriminate]].
  all: destruct (_lockfile self) eqn:Hf; cbn; rewrite ?Hf; cbn;
    unfold lockf_calls; cbn;
    destruct (lockf_os os (length (lockf_log w))) as [e|] eqn:Ho; cbn;
    try destruct e; destruct b; cbn; rewrite ?Hl, ?Hd; cbn;
    try solve [eexists _, _; split_pass];
    try solve [eexists _, _, _; split; [reflexivity | discriminate]].
Qed.

(** The loop ends in the timeout error exactly when one of its passes finds
    the timeout expired and every pass before it went round again. *)
Lemma acquire_loop_times_out (fuel : nat) (b : bool) (start : float)
    (self : LockFile) (w : World) :
  times_out (acquire_loop os fuel b start self w) <->
  exists k, k < fuel /\ expired os self start (time_calls w + k) = true /\
    forall j, j < k ->
      expired os self start (time_calls w + j) = false /\
      goes_round os b self (lockf_calls w + j) = true.
Proof.
  revert self w. induction fuel as [|fuel IH]; intros self w.
  - split.
    + intros (s & w' & H). discriminate.
    + intros (k & Hk & _). lia.
  - cbn [acquire_loop].
    destruct (expired os self start (time_calls w)) eqn:He.
    + rewrite (acquire_pass_expired b start self w He). split.
      * intros _. exists 0. rewrite Nat.add_0_r. repeat split; [lia | done | lia | lia].
      * intros _. eexists _, _. reflexivity.
    + pose proof (acquire_pass_not_expired b start self w He) as Hp.
      destruct (goes_round os b self (lockf_calls w)) eqn:Hg.
      * destruct Hp as (self' & w' & -> & Hto & Hdl & Hlk & Htc & Hlc).
        rewrite IH.
        assert (Hexp : forall j, expired os self' start (time_calls w' + j)
                                 = expired os self start (time_calls w + S j)).
        { intros j. unfold expired. rewrite Hto.
          destruct (truthy (timeout self)) eqn:Ht; [|reflexivity].
          rewrite (Htc eq_refl).
          now replace (S (time_calls w) + j) with (time_calls w + S j) by lia. }
        assert (Hgo : forall j, goes_round os b self' (lockf_calls w' + j)
                                = goes_round os b self (lockf_calls w + S j)).
        { intros j. unfold goes_round, can_sleep. rewrite Hlk, Hlc, Hdl.
          destruct (locked self); [reflexivity|].
          now replace (S (lockf_calls w) + j) with (lockf_calls w + S j) by lia. }
        split.
        -- intros (k & Hk & Hek & Hbefore). exists (S k).
           split; [lia|]. split; [now rewrite <- Hexp|].
           intros [|j] Hj.
           ++ rewrite !Nat.add_0_r. now split.
           ++ rewrite <- Hexp, <- Hgo. apply Hbefore. lia.
        -- intros ([|k] & Hk & Hek & Hbefore).
           ++ rewrite Nat.add_0_r in Hek. congruence.
           ++ exists k. split; [lia|]. split; [now rewrite Hexp|].
              intros j Hj. rewrite Hexp, Hgo. apply Hbefore. lia.
      * destruct Hp as (r & self' & w' & -> & Hr). split.
        -- intros (s & w'' & H). congruence.
        -- intros ([|k] & Hk & Hek & Hbefore).
           ++ rewrite Nat.add_0_r in Hek. congruence.
           ++ destruct (Hbefore 0) as [_ Hg0]; [lia|].
              rewrite Nat.add_0_r in Hg0. congruence.
Qed.

(** Without a timeout, a blocking loop whose every pass goes round never
    ends. *)
Lemma acquire_loop_waits (fuel : nat) (start : float) (self : LockFile) (w : World) :
  truthy (timeout self) = false ->
  (forall n, goes_round os true self (lockf_calls w + n) = true) ->
  acquire_loop os fuel true start self w = None.
Proof.
  revert self w. induction fuel as [|fuel IH]; intros self w Ht Hg; [reflexivity|].
  cbn [acquire_loop].
  assert (He : expired os self start (time_calls w) = false)
    by (unfold expired; now rewrite Ht).
  pose proof (acquire_pass_not_expired true start self w He) as Hp.
  pose proof (Hg 0) as Hg0. rewrite Nat.add_0_r in Hg0. rewrite Hg0 in Hp.
  destruct Hp as (self' & w' & -> & Hto & Hdl & Hlk & _ & Hlc).
  apply IH; [now rewrite Hto|].
  intros n. unfold goes_round, can_sleep in *. rewrite Hlk, Hlc, Hdl.
  destruct (locked self) eqn:Hl.
  - specialize (Hg 0). cbn in Hg. exact Hg.
  - specialize (Hg (S n)). cbn in Hg.
    now replace (S (lockf_calls w) + n) with (lockf_calls w + S n) by lia.
Qed.

(** [acquire] is its loop, started at the first clock reading, unless the
    handle is locked and the call does not block. *)
Lemma acquire_as_loop (fuel : nat) (b : bool) (self : LockFile) (w : World) :
  locked self && negb b = false ->
  acquire os fuel b self w
  = acquire_loop os fuel b (clock os (time_calls w)) self (snd (time_time os w)).
Proof. intros Hb. unfold acquire. now rewrite Hb. Qed.

(** The timeout test of pass [k], in the terms of the statements. *)
Lemma expired_reached (self : LockFile) (w : World) (k : nat) :
  expired os self (clock os (time_calls w))
    (time_calls (snd (time_time os w)) + k)
  = truthy (timeout self) && reached os self w k.
Proof. reflexivity. Qed.

(** C4, as amended: [acquire] raises [AcquisitionError] if and only if
    [timeout] is true as a Python number (not zero: a negative one counts)
    and, at the timeout test of one of its passes, the difference the code
    computes between the clock reading and the start of the call has
    reached [timeout], while every earlier pass went round again: its own
    test did not fire, the lock was not acquired (the handle is already
    locked, or the call is blocking and the lock is held elsewhere), and
    the sleep that ends the pass did not fail (a [delay] that [time.sleep]
    refuses, a negative one for instance, makes it raise [IOError], which
    ends the call). With [timeout] zero
    a blocking [acquire] never raises [AcquisitionError], and it is still
    waiting after any number of passes that all went round. *)
Theorem acquire_times_out_iff (blocking : bool) (self : LockFile) (w : World) :
  ((exists fuel, times_out (acquire os fuel blocking self w)) <->
     truthy (timeout self) = true /\
     (locked self = true -> blocking = true) /\
     exists k, reached os self w k = true /\
       forall j, j < k ->
         reached os self w j = false /\
         goes_round os blocking self (lockf_calls w + j) = true)
  /\
  (truthy (timeout self) = false ->
     (forall fuel, ~ times_out (acquire os fuel true self w)) /\
     ((forall n, goes_round os true self (lockf_calls w + n) = true) ->
        forall fuel, acquire os fuel true self w = None)).
Proof.
  split.
  - split.
    + intros (fuel & Hto).
      destruct (locked self && negb blocking) eqn:Hb.
      { unfold acquire in Hto. rewrite Hb in Hto.
        destruct Hto as (s & w' & H). discriminate. }
      rewrite (acquire_as_loop _ _ _ _ Hb), acquire_loop_times_out in Hto.
      destruct Hto as (k & _ & Hek & Hbefore).
      rewrite expired_reached in Hek. apply andb_true_iff in Hek as [Ht Hr].
      split; [exact Ht|]. split.
      { intros Hl. rewrite Hl in Hb. now destruct blocking. }
      exists k. split; [exact Hr|].
      intros j Hj. destruct (Hbefore j Hj) as [Hej Hgj]. split; [|exact Hgj].
      rewrite expired_reached, Ht in Hej. exact Hej.
    + intros (Ht & Hb & k & Hr & Hbefore).
      assert (Hb' : locked self && negb blocking = false).
      { destruct (locked self); [|reflexivity]. now rewrite (Hb eq_refl). }
      exists (S k). rewrite (acquire_as_loop _ _ _ _ Hb'), acquire_loop_times_out.
      exists k. split; [lia|]. split.
      { rewrite expired_reached, Ht, Hr. reflexivity. }
      intros j Hj. destruct (Hbefore j Hj) as [Hnr Hgj]. split; [|exact Hgj].
      rewrite expired_reached, Ht, Hnr. reflexivity.
  - intros Ht.
    assert (Hb : locked self && negb true = false) by apply andb_false_r.
    split.
    + intros fuel Hto.
      rewrite (acquire_as_loop _ _ _ _ Hb), acquire_loop_times_out in Hto.
      destruct Hto as (k & _ & Hek & _).
      rewrite expired_reached, Ht in Hek. discriminate.
    + intros Hg fuel. rewrite (acquire_as_loop _ _ _ _ Hb).
      now apply acquire_loop_waits.
Qed.

(** A pass on a handle that is already locked tests the timeout and
    sleeps; it never calls [fcntl.lockf]. *)
Lemma acquire_pass_held (b : bool) (start : float) (self : LockFile) (w : World) :
  locked self = true ->
  acquire_pass os b start self w
  = if expired os self start (time_calls w)
    then Done (Raise AcquisitionError) self (after_test os self w)
    else sleep_then_again os self (after_test os self w).
Proof.
  intros Hl. unfold expired, acquire_pass, after_test.
  destruct (truthy (timeout self)); cbn.
  - destruct (PrimFloat.leb _ _); cbn; [reflexivity|]. now rewrite Hl.
  - now rewrite Hl.
Qed.

Lemma after_test_log (self : LockFile) (w : World) :
  lockf_log (after_test os self w) = lockf_log w /\
  files (after_test os self w) = files w /\
  slept (after_test os self w) = slept w.
Proof. unfold after_test. now destruct (truthy (timeout self)). Qed.

Lemma repeat_snoc_app {A : Type} (x : A) (n : nat) (l : list A) :
  repeat x n ++ x :: l = x :: repeat x n ++ l.
Proof. induction n as [|n IH]; cbn; [reflexivity | now rewrite IH]. Qed.

(** On a locked handle the loop can only end in an error: the timeout
    error, or the [IOError] of a [time.sleep] that refuses [delay]. The
    handle and the lock file are untouched. *)
Lemma acquire_loop_held (fuel : nat) (b : bool) (start : float)
    (self : LockFile) (w : World) :
  locked self = true ->
  acquire_loop os fuel b start self w = None \/
  exists e w', acquire_loop os fuel b start self w = Some (Raise e, self, w') /\
    (e = AcquisitionError \/
     (exists e0, e = IOError e0) /\ can_sleep os self = false) /\
    lockf_log w' = lockf_log w /\ files w' = files w.
Proof.
  intros Hl. revert w. induction fuel as [|fuel IH]; intros w; [now left|].
  cbn [acquire_loop]. rewrite (acquire_pass_held b start self w Hl).
  destruct (after_test_log self w) as (Hlog0 & Hfiles0 & _).
  destruct (expired os self start (time_calls w)).
  - right. eexists _, _. split; [reflexivity|]. split; [now left|]. now split.
  - unfold sleep_then_again, time_sleep.
    destruct (sleep_error os (delay self)) as [se|] eqn:Hd.
    + right. eexists _, _. split; [reflexivity|].
      split; [right; split; [now eexists|]; unfold can_sleep; now rewrite Hd|].
      now split.
    + match goal with |- context [acquire_loop os fuel b start self ?w1] =>
        destruct (IH w1) as [-> | (e & w' & -> & He & Hlog & Hfiles)]
      end; [now left|].
      right. exists e, w'. split; [reflexivity|].
      split; [exact He|].
      rewrite Hlog, Hfiles. cbn. now split.
Qed.




(** [release] on a handle that is not locked does nothing. *)
Lemma release_unlocked (self : LockFile) (w : World) :
  locked self = false -> release os self w = (Return false, self, w).
Proof. unfold locked, release. now intros ->. Qed.

(** [release] on a locked handle, whatever the operating system answers. *)
Lemma release_locked (self : LockFile) (w : World) :
  locked self = true ->
  release os self w
  = (Return true, set_lockfile None (set_lock false self),
     snd (os_unlink os (lockfile self) (snd (fcntl_lockf os (_lockfile self) w)))).
Proof.
  unfold locked, release. intros ->. cbn [negb].
  destruct (fcntl_lockf os (_lockfile self) w) as [r w1]. cbn [snd].
  unfold os_unlink. cbn.
  destruct (decide (lockfile self ∈ files w1)); [|reflexivity].
  destruct (unlink_os os (unlink_calls w1)); cbn; [reflexivity|].
  destruct r as [e'|]; [destruct (is_IOError e')|]; reflexivity.
Qed.

(** C7: [release] on a locked handle never raises. Whether or not
    unlocking fails and whether or not the lock file can be deleted, it
    returns [True] with the lock flag cleared and [_lockfile] reset, having
    called both [fcntl.lockf] and [os.unlink]. *)
Theorem release_swallows_failures (self : LockFile) (w : World) :
  locked self = true ->
  exists self' w',
    release os self w = (Return true, self', w') /\
    locked self' = false /\
    _lockfile self' = None /\
    lockfile self' = lockfile self /\
    unlink_calls w' = S (unlink_calls w) /\
    (forall f, _lockfile self = Some f ->
               lockf_log w' = lockf_os os (lockf_calls w) :: lockf_log w).
Proof.
  intros Hl. rewrite (release_locked self w Hl).
  eexists _, _. split; [reflexivity|].
  destruct (_lockfile self) as [f|]; cbn;
    repeat split; intros; try reflexivity; congruence.
Qed.

(** A pass that returns [True] has set the lock flag. *)
Lemma acquire_pass_true (b : bool) (start : float) (self self' : LockFile)
    (w w' : World) :
  acquire_pass os b start self w = Done (Return true) self' w' ->
  locked self' = true.
Proof.
  unfold acquire_pass, sleep_then_again, time_sleep.
  destruct (truthy (timeout self)); cbn;
    try destruct (PrimFloat.leb _ _); cbn; try discriminate;
    destruct (locked self); try discriminate;
    destruct (sleep_error os (delay self)) as [se|] eqn:Hd; try discriminate;
    destruct (_lockfile self) eqn:Hf; cbn; rewrite ?Hf; cbn;
    destruct (lockf_os os _) as [e|]; cbn;
    try (destruct e; destruct b; cbn; rewrite ?Hd); try discriminate;
    intros H; inversion H; reflexivity.
Qed.

Lemma acquire_true_locked (fuel : nat) (b : bool) (self self' : LockFile)
    (w w' : World) :
  acquire os fuel b self w = Some (Return true, self', w') ->
  locked self' = true.
Proof.
  unfold acquire. destruct (locked self && negb b); [discriminate|].
  cbn [time_time]. generalize (clock os (time_calls w)) as start.
  intros start.
  set (w0 := {| time_calls := S (time_calls w) |}). clearbody w0.
  revert self w0. induction fuel as [|fuel IH]; intros self w0; [discriminate|].
  cbn [acquire_loop].
  destruct (acquire_pass os b start self w0) as [r s1 w1|s1 w1] eqn:Hp.
  - intros H. inversion H; subst. eapply acquire_pass_true, Hp.
  - apply IH.
Qed.

(** C6: after an [acquire] that returned [True], the first [release]
    returns [True] and every [release] that follows returns [False] and
    changes nothing; [release] on a handle that is not locked returns
    [False] rather than raising. *)
Theorem release_idempotent (fuel : nat) (blocking : bool)
    (self self1 : LockFile) (w w1 : World) :
  acquire os fuel blocking self w = Some (Return true, self1, w1) ->
  exists self2 w2,
    release os self1 w1 = (Return true, self2, w2) /\
    (forall n, release_many os n self2 w2 = (repeat (Return false) n, self2, w2)) /\
    (forall self' w', locked self' = false ->
                      release os self' w' = (Return false, self', w')).
Proof.
  intros Hacq. apply acquire_true_locked in Hacq as Hl.
  rewrite (release_locked self1 w1 Hl).
  eexists _, _. split; [reflexivity|]. split.
  - induction n as [|n IH]; [reflexivity|].
    cbn [release_many]. rewrite release_unlocked by reflexivity.
    now rewrite IH.
  - intros self' w'. apply release_unlocked.
Qed.

(** What a pass on an unlocked handle leaves behind: nothing when it
    raises the timeout error; when it goes round again it has opened the
    lock file, unless it was open already, and called [fcntl.lockf] once. *)
Lemma acquire_pass_unlocked (b : bool) (start : float) (self : LockFile) (w : World) :
  locked self = false ->
  match acquire_pass os b start self w with
  | Done r self' w' =>
      r = Raise AcquisitionError ->
      self' = self /\ lockf_calls w' = lockf_calls w /\
      files w' = files w /\ opened w' = opened w
  | Again self' w' =>
      locked self' = false /\
      lockfile self' = lockfile self /\
      lockf_calls w' = S (lockf_calls w) /\
      files w ⊆ files w' /\
      match _lockfile self with
      | Some f => _lockfile self' = Some f /\ opened w' = opened w
      | None =>
          _lockfile self' = Some (length (opened w)) /\
          opened w' = opened w ++ [lockfile self] /\
          lockfile self ∈ files w'
      end
  end.
Proof.
  intros Hl. unfold acquire_pass, sleep_then_again, time_sleep.
  destruct (truthy (timeout self)); cbn;
    try destruct (PrimFloat.leb _ _); cbn; rewrite ?Hl;
    try (intros _; now repeat split).
  all: destruct (sleep_error os (delay self)) as [se|] eqn:Hd;
    destruct (_lockfile self) eqn:Hf; cbn; rewrite ?Hf; cbn;
    unfold lockf_calls; cbn;
    destruct (lockf_os os (length (lockf_log w))) as [e|]; cbn;
    try (destruct e; destruct b; cbn; rewrite ?Hd); try discriminate;
    repeat split; try assumption; try reflexivity;
    first [ apply elem_of_union_l, elem_of_singleton_2; reflexivity
          | apply union_subseteq_r ].
Qed.

(** The same for the whole loop when it ends in the timeout error. *)
Lemma acquire_loop_timeout_unlocked (fuel : nat) (b : bool) (start : float)
    (self self' : LockFile) (w w' : World) :
  locked self = false ->
  acquire_loop os fuel b start self w = Some (Raise AcquisitionError, self', w') ->
  locked self' = false /\
  lockfile self' = lockfile self /\
  files w ⊆ files w' /\
  lockf_calls w <= lockf_calls w' /\
  (forall f, _lockfile self = Some f ->
             _lockfile self' = Some f /\ opened w' = opened w) /\
  (lockf_calls w < lockf_calls w' ->
     _lockfile self = None ->
     exists f, _lockfile self' = Some f /\
               opened w' !! f = Some (lockfile self) /\
               lockfile self ∈ files w').
Proof.
  revert self w. induction fuel as [|fuel IH]; intros self w Hl; [discriminate|].
  cbn [acquire_loop].
  pose proof (acquire_pass_unlocked b start self w Hl) as Hp.
  destruct (acquire_pass os b start self w) as [r s1 w1|s1 w1].
  - intros H. inversion H; subst.
    destruct (Hp eq_refl) as (-> & Hc & Hf & Ho).
    split; [exact Hl|]. split; [reflexivity|].
    split; [now rewrite Hf|]. split; [lia|].
    split; [intros f Hsome; now split|].
    intros Hlt. lia.
  - destruct Hp as (Hl1 & Hpath & Hc & Hsub & Hfile).
    intros Hloop.
    destruct (IH s1 w1 Hl1 Hloop) as (Hl' & Hpath' & Hsub' & Hmono & Hkeep & _).
    split; [exact Hl'|]. split; [congruence|].
    split; [now transitivity (files w1)|]. split; [lia|].
    split.
    + intros f Hf. rewrite Hf in Hfile. destruct Hfile as [Hf1 Ho1].
      destruct (Hkeep f Hf1) as [Hf' Ho']. split; [exact Hf'|congruence].
    + intros _ Hnone. rewrite Hnone in Hfile.
      destruct Hfile as (Hf1 & Ho1 & Hin).
      destruct (Hkeep _ Hf1) as [Hf' Ho'].
      exists (length (opened w)). split; [exact Hf'|]. split; [|now apply Hsub'].
      rewrite Ho', Ho1. now apply list_lookup_middle.
Qed.

(** C10, as amended: when [acquire] raises [AcquisitionError] the lock
    flag of the handle is what it was before the call: still false for a
    handle that was not locked, still true for one that was. What the
    failed call did persists: if it called [fcntl.lockf] at all, the handle
    was not locked and [_lockfile] holds a file object afterwards (the one
    it held before, when there was one), and a call that found [_lockfile]
    empty has created the lock file on disk and kept the file object it
    opened. *)
Theorem acquire_timeout_keeps_lockfile (fuel : nat) (blocking : bool)
    (self self' : LockFile) (w w' : World) :
  acquire os fuel blocking self w = Some (Raise AcquisitionError, self', w') ->
  locked self' = locked self /\
  lockfile self' = lockfile self /\
  (lockf_calls w < lockf_calls w' ->
     locked self = false /\
     (exists f, _lockfile self' = Some f) /\
     (forall f, _lockfile self = Some f -> _lockfile self' = Some f) /\
     (_lockfile self = None ->
        lockfile self ∈ files w' /\
        exists f, _lockfile self' = Some f /\
                  opened w' !! f = Some (lockfile self))).
Proof.
  destruct (locked self) eqn:Hl.
  - destruct blocking.
    + rewrite acquire_as_loop by (now rewrite Hl). intros Hloop.
      destruct (acquire_loop_held fuel true (clock os (time_calls w)) self
                  (snd (time_time os w)) Hl)
        as [Hnone | (e & w1 & Hsome & _ & Hlog & _)]; [congruence|].
      rewrite Hsome in Hloop. inversion Hloop; subst.
      split; [exact Hl|]. split; [reflexivity|].
      unfold lockf_calls. rewrite Hlog. cbn. lia.
    + unfold acquire. rewrite Hl. discriminate.
  - unfold acquire. rewrite Hl. cbn [andb time_time].
    intros Hloop.
    apply acquire_loop_timeout_unlocked in Hloop
      as (Hl' & Hpath & Hsub & _ & Hkeep & Hnew); [|exact Hl].
    cbn in Hkeep, Hnew, Hsub. change (lockf_calls {| time_calls := S (time_calls w) |})
      with (lockf_calls w) in *.
    split; [exact Hl'|]. split; [exact Hpath|].
    intros Hlt. split; [reflexivity|]. split; [|split].
    + destruct (_lockfile self) as [f|] eqn:Hf.
      * exists f. now apply Hkeep.
      * destruct (Hnew Hlt eq_refl) as (f & Hf' & _). now exists f.
    + intros f Hf. now apply Hkeep.
    + intros Hnone. destruct (Hnew Hlt Hnone) as (f & Hf' & Ho & Hin).
      split; [exact Hin|]. now exists f.
Qed.

End LockFacts.

(** * Properties of uninterruptible *)

Section GuardFacts.

Import Signal.

Context {St Args : Type}.
Variable app : App St Args.

(** The signals that arrive while the wrapped function runs leave the last
    of them in [_caught_signal]. *)
Lemma arrivals_caught (arrivals : list frame) (fr : frame) (self : uninterruptible) :
  last arrivals = Some fr ->
  fold_left (fun g fr' => signal_handler g SIGTERM fr') arrivals self
  = {| _caught_signal := Some (SIGTERM, fr);
       old_signal_handler := old_signal_handler self |}.
Proof.
  revert self. induction arrivals as [|a l IH]; intros self Hlast; [discriminate|].
  cbn [fold_left]. destruct l as [|a' l'].
  - cbn in Hlast. inversion Hlast; subst. reflexivity.
  - rewrite IH by exact Hlast. reflexivity.
Qed.

(** When the wrapped function raises, the exception leaves [__call__] at
    once: it reaches the caller unchanged, the handler of the decorator
    stays installed, and what was caught stays in [_caught_signal]. *)
Lemma call_raise (self : uninterruptible) (args : Args) (arrivals : list frame)
    (p : Process St) (e : exn) (st : St) :
  func app args (state p) = (Raise e, st) ->
  call app self args arrivals p
  = (Raise e,
     fold_left (fun g fr => signal_handler g SIGTERM fr) arrivals
       {| _caught_signal := None; old_signal_handler := Some (sigterm p) |},
     {| sigterm := GuardHandler; state := st |}).
Proof. unfold call. cbn. now intros ->. Qed.

(** C3, as amended: the guarded callable runs the wrapped function once on
    the arguments it is given, with the same effect on the state of the
    application; when the function returns without error and no signal
    arrived, it restores the SIGTERM handler and returns [None], whatever
    the function returned. *)
Theorem call_returns_none (self : uninterruptible) (args : Args)
    (p : Process St) (v : pyval) (st : St) :
  func app args (state p) = (Return v, st) ->
  call app self args [] p
  = (Return PyNone,
     {| _caught_signal := None; old_signal_handler := Some (sigterm p) |},
     {| sigterm := sigterm p; state := st |}).
Proof. unfold call. cbn. now intros ->. Qed.

(** C8 fails on the code for an invocation whose wrapped function raises
    after SIGTERM was captured: the exception leaves [__call__] before the
    previous handler is restored and before the captured signal is looked
    at. Whatever the previous disposition was, its effect is not
    re-delivered: a callable handler is not called (the state of the
    application is as the function left it), the default disposition does
    not end the process, the handler of the decorator stays installed and
    the signal stays in [_caught_signal]. *)
Theorem call_raise_drops_signal (self : uninterruptible) (args : Args)
    (arrivals : list frame) (fr : frame) (p : Process St) (e : exn) (st : St) :
  func app args (state p) = (Raise e, st) ->
  last arrivals = Some fr ->
  call app self args arrivals p
  = (Raise e,
     {| _caught_signal := Some (SIGTERM, fr);
        old_signal_handler := Some (sigterm p) |},
     {| sigterm := GuardHandler; state := st |}).
Proof.
  intros Hf Hlast. rewrite (call_raise self args arrivals p e st Hf).
  now rewrite (arrivals_caught arrivals fr _ Hlast).
Qed.

End GuardFacts.

(** * Properties of atomic_writer *)

Section WriterFacts.

Import Atomic.

Lemma append_neq_self (s t : string) : t <> "" -> s +:+ t <> s.
Proof.
  intros Ht. induction s as [|a s IH]; cbn.
  - exact Ht.
  - intros H. inversion H. contradiction.
Qed.

(** The temporary file is never the target. *)
Lemma temppath_neq (pid : N) (fpath : string) : temppath pid fpath <> fpath.
Proof. unfold temppath. apply append_neq_self. discriminate. Qed.

Lemma py_open_spec (path : string) (m : mode) (fs : FS) :
  py_open path m fs
  = ({| name := path; fmode := m |}, <[path := initial_content m fs path]> fs).
Proof.
  unfold py_open, initial_content. f_equal.
  destruct m; [reflexivity|].
  destruct (fs !! path) as [content|] eqn:E; [|reflexivity].
  symmetry. now apply insert_id.
Qed.

(** Writing through the handle only changes the file it names. *)
Lemma writes_spec (fp : pyfile) (ws : list string) (content : string) (fs : FS) :
  fold_left (fun fs data => fp_write fp data fs) ws (<[name fp := content]> fs)
  = <[name fp := written ws content]> fs.
Proof.
  revert content. induction ws as [|data ws IH]; intros content; [reflexivity|].
  cbn [fold_left]. unfold fp_write at 2. rewrite alter_insert_eq. apply IH.
Qed.

(** [os.remove] in the [finally] clause: the file is deleted unless the
    operating system refuses, and a refusal is swallowed. *)
Lemma os_remove_spec (fault : option errno) (path : string) (fs : FS) :
  exists r,
    os_remove fault path fs
    = (r, match fault with None => delete path fs | Some _ => fs end) /\
    match r with Some e => is_IOError_or_OSError e = true | None => True end.
Proof.
  unfold os_remove. destruct (fs !! path) as [c|] eqn:E.
  - destruct fault as [e|]; eexists; (split; [reflexivity|]); exact I || reflexivity.
  - exists (Some (OSError ENOENT)). split; [|reflexivity].
    destruct fault; [reflexivity|]. now rewrite delete_id.
Qed.

(** The generator after its [yield], when the pending result is known. *)
Lemma atomic_writer_finally (remove_fault : option errno) (path : string)
    (pending : option exn) (fs : FS) :
  (let '(r, fs2) := os_remove remove_fault path fs in
   match r with
   | Some e => if is_IOError_or_OSError e then (pending, fs2) else (Some e, fs2)
   | None => (pending, fs2)
   end)
  = (pending, match remove_fault with None => delete path fs | Some _ => fs end).
Proof.
  destruct (os_remove_spec remove_fault path fs) as (r & -> & Hr).
  destruct r as [e|]; [now rewrite Hr | reflexivity].
Qed.

(** A block that only writes through the handle changes the file the
    handle names, and nothing else. *)
Lemma run_block_spec (b : block) (fp : pyfile) (content : string) (fs : FS) :
  run_block b fp (<[name fp := content]> fs)
  = (raises b, <[name fp := written (writes b) content]> fs).
Proof. unfold run_block. now rewrite writes_spec. Qed.

(** What the [with] statement returns and leaves on disk, case by case:
    [fs1] is the disk as the block leaves it, [kept] that disk once the
    [finally] clause has run. *)
Lemma with_atomic_writer_cases (pid : N) (fpath : string) (m : mode)
    (rename_fault remove_fault : option errno) (b : body) (fs : FS) :
  let tmp := temppath pid fpath in
  let fp := {| name := tmp; fmode := m |} in
  let fs0 := <[tmp := initial_content m fs tmp]> fs in
  let thrown := fst (b fp fs0) in
  let fs1 := snd (b fp fs0) in
  let kept :=
    match remove_fault with None => delete tmp fs1 | Some _ => fs1 end in
  with_atomic_writer pid fpath m rename_fault remove_fault b fs
  = match thrown, fs1 !! tmp, rename_fault with
    | Some e, _, _ => (Raise e, kept)
    | None, None, _ => (Raise (OSError ENOENT), kept)
    | None, Some _, Some e => (Raise (OSError e), kept)
    | None, Some content, None =>
        (Return tt, <[fpath := content]> (delete tmp fs1))
    end.
Proof.
  intros tmp fp fs0 thrown fs1 kept.
  pose proof (temppath_neq pid fpath) as Hne. fold tmp in Hne.
  unfold with_atomic_writer, atomic_writer_enter.
  rewrite py_open_spec. fold tmp fp fs0.
  subst thrown fs1 kept. destruct (b fp fs0) as [thrown fs1]. cbn [fst snd].
  unfold atomic_writer_exit. fold tmp.
  destruct thrown as [e|].
  - now rewrite atomic_writer_finally.
  - unfold os_rename. destruct (fs1 !! tmp) as [content|] eqn:Htmp.
    + destruct rename_fault as [e|].
      * now rewrite atomic_writer_finally.
      * unfold os_remove.
        rewrite lookup_insert_ne by congruence.
        now rewrite lookup_delete_eq.
    + now rewrite atomic_writer_finally.
Qed.

(** C9, as amended: [atomic_writer] hands the block a handle on a
    temporary file next to the target, opened in the mode asked for. When
    the block finishes and the rename succeeds, the target holds what the
    temporary file held and the temporary file is gone. When the block
    raises, or the rename fails, the error reaches the caller and the
    helper itself does not touch the target, which is as the block left it;
    the temporary file is removed only if [os.remove] succeeds: a failure
    of the removal is swallowed and the temporary file stays. *)
Theorem atomic_writer_commits_or_rolls_back (pid : N) (fpath : string)
    (m : mode) (rename_fault remove_fault : option errno) (b : body) (fs : FS) :
  let tmp := temppath pid fpath in
  let fp := {| name := tmp; fmode := m |} in
  let fs0 := <[tmp := initial_content m fs tmp]> fs in
  let thrown := fst (b fp fs0) in
  let fs1 := snd (b fp fs0) in
  let kept :=
    match remove_fault with None => delete tmp fs1 | Some _ => fs1 end in
  (atomic_writer_enter pid fpath m fs = (fp, fs0) /\ tmp <> fpath) /\
  with_atomic_writer pid fpath m rename_fault remove_fault b fs
  = match thrown, fs1 !! tmp, rename_fault with
    | Some e, _, _ => (Raise e, kept)
    | None, None, _ => (Raise (OSError ENOENT), kept)
    | None, Some _, Some e => (Raise (OSError e), kept)
    | None, Some content, None =>
        (Return tt, <[fpath := content]> (delete tmp fs1))
    end /\
  kept !! fpath = fs1 !! fpath /\
  (remove_fault = None -> kept !! tmp = None) /\
  (remove_fault <> None -> kept !! tmp = fs1 !! tmp) /\
  (forall content,
     (<[fpath := content]> (delete tmp fs1)) !! fpath = Some content /\
     (<[fpath := content]> (delete tmp fs1)) !! tmp = None).
Proof.
  intros tmp fp fs0 thrown fs1 kept.
  pose proof (temppath_neq pid fpath) as Hne. fold tmp in Hne.
  split; [|split; [|split; [|split; [|split]]]].
  - split; [|exact Hne]. unfold atomic_writer_enter. apply py_open_spec.
  - apply with_atomic_writer_cases.
  - subst kept. destruct remove_fault; [reflexivity|].
    now apply lookup_delete_ne.
  - intros ->. apply lookup_delete_eq.
  - subst kept. destruct remove_fault; [reflexivity | congruence].
  - intros content. split; [apply lookup_insert_eq|].
    rewrite lookup_insert_ne by congruence. apply lookup_delete_eq.
Qed.

End WriterFacts.

(** * The model on concrete runs *)

Section Runs.

Import Lock Signal Atomic.

(** [acquire] then [release] on a free lock. *)
Example acquire_free_run :
  acquire os_free 1 true lock_x fresh = Some (Return true, lock_x_held, after_acquire).
Proof. vm_compute. reflexivity. Qed.

(** The scenario of a lock held elsewhere: 0.2 s timeout, 0.1 s clock. *)
Example acquire_busy_run :
  acquire os_busy 5 true lock_x fresh
  = Some (Raise AcquisitionError, lock_x_open, after_timeout).
Proof. vm_compute. reflexivity. Qed.

(** A non-blocking call on a lock held elsewhere: one attempt, no sleep. *)
Example acquire_nonblocking_run :
  acquire os_busy 1 false lock_x fresh
  = Some (Return false, lock_x_open,
          {| time_calls := 2; lockf_log := [Some EAGAIN]; unlink_calls := 0;
             files := {[ "/tmp/x.lock" ]}; opened := ["/tmp/x.lock"];
             slept := [] |}).
Proof. vm_compute. reflexivity. Qed.

(** A negative [delay]: the first sleep raises, after one attempt. *)
Example acquire_negative_delay_run :
  acquire os_busy 5 true lock_neg_delay fresh
  = Some (Raise (IOError EINVAL), set_lockfile (Some 0%nat) lock_neg_delay,
          {| time_calls := 2; lockf_log := [Some EAGAIN]; unlink_calls := 0;
             files := {[ "/tmp/x.lock" ]}; opened := ["/tmp/x.lock"];
             slept := [] |}).
Proof. vm_compute. reflexivity. Qed.

(** The clock arithmetic is that of binary64 numbers: between the readings
    0.2 and 0.3 less than 0.1 s have passed, between 0.2 and 0.4 at least
    0.2 s. *)
Example elapsed_rounds :
  PrimFloat.leb 0.1 (PrimFloat.sub (ticking 3) (ticking 2)) = false /\
  PrimFloat.leb 0.2 (PrimFloat.sub (ticking 4) (ticking 2)) = true.
Proof. split; vm_compute; reflexivity. Qed.

(** Writing the settings file: the commit and the roll-back. *)
Example atomic_writer_ok_run :
  with_atomic_writer 4242 "settings.json" ModeW None None (run_block block_ok) disk
  = (Return tt, {[ "settings.json" := "new" ]}).
Proof. vm_compute. reflexivity. Qed.

Example atomic_writer_fails_run :
  with_atomic_writer 4242 "settings.json" ModeW None None (run_block block_fails) disk
  = (Raise (AppError 7), disk).
Proof. vm_compute. reflexivity. Qed.

End Runs.

(** * The claims at concrete inputs *)

Section Concrete.

Import Lock Signal Atomic.

(** C1: a wrapped function that raises. The exception reaches the caller
    unchanged, but [__call__] is left before it restores the handler: the
    process that started with the default disposition of SIGTERM ends with
    the handler of the decorator installed, and a SIGTERM caught while the
    function ran (here at frame 4) is never acted upon. *)
Theorem call_raise_keeps_guard_handler :
  call logging_app Signal.init 0%Z [] (idle SIG_DFL)
  = (Raise (AppError 1),
     {| _caught_signal := None; old_signal_handler := Some SIG_DFL |},
     {| sigterm := GuardHandler; state := [Worked 0] |}) /\
  call logging_app Signal.init 0%Z [4] (idle SIG_DFL)
  = (Raise (AppError 1),
     {| _caught_signal := Some (SIGTERM, 4); old_signal_handler := Some SIG_DFL |},
     {| sigterm := GuardHandler; state := [Worked 0] |}).
Proof. split; reflexivity. Qed.



(** C3 fails on the code: the wrapped function returns 42, the guarded
    callable returns [None]. *)
Lemma call_result_counterexample :
  func logging_app 21%Z [] = (Return (PyInt 42), [Worked 21]) /\
  call logging_app Signal.init 21%Z [] (idle SIG_DFL)
  = (Return PyNone,
     {| _caught_signal := None; old_signal_handler := Some SIG_DFL |},
     {| sigterm := SIG_DFL; state := [Worked 21] |}).
Proof. split; reflexivity. Qed.

(** The amended C3 on the same call. *)
Lemma call_returns_none_witness :
  func logging_app 21%Z (state (idle SIG_DFL)) = (Return (PyInt 42), [Worked 21]) /\
  call logging_app Signal.init 21%Z [] (idle SIG_DFL)
  = (Return PyNone,
     {| _caught_signal := None; old_signal_handler := Some SIG_DFL |},
     {| sigterm := SIG_DFL; state := [Worked 21] |}).
Proof.
  split; [reflexivity|].
  apply (call_returns_none logging_app Signal.init 21%Z (idle SIG_DFL)
           (PyInt 42) [Worked 21]).
  reflexivity.
Defined.

(** C4 fails on the code: with [timeout = -1.0] the first timeout test
    already raises [AcquisitionError], although [timeout > 0] does not hold
    and the lock is free. *)
Lemma acquire_negative_timeout_counterexample :
  PrimFloat.ltb (timeout lock_neg) 0 = true /\
  acquire os_free 1 true lock_neg fresh
  = Some (Raise AcquisitionError, lock_neg,
          {| time_calls := 2; lockf_log := []; unlink_calls := 0;
             files := ∅; opened := []; slept := [] |}).
Proof. split; vm_compute; reflexivity. Qed.


(** C6 on [lock_x]: acquired, released, released twice more. *)
Lemma release_idempotent_witness :
  acquire os_free 1 true lock_x fresh = Some (Return true, lock_x_held, after_acquire) /\
  exists self2 w2,
    release os_free lock_x_held after_acquire = (Return true, self2, w2) /\
    release_many os_free 2 self2 w2 = ([Return false; Return false], self2, w2).
Proof.
  assert (Hacq : acquire os_free 1 true lock_x fresh
                 = Some (Return true, lock_x_held, after_acquire))
    by (vm_compute; reflexivity).
  split; [exact Hacq|].
  destruct (release_idempotent os_free 1 true lock_x lock_x_held fresh
              after_acquire Hacq) as (self2 & w2 & Hfirst & Hnext & _).
  exists self2, w2. split; [exact Hfirst | exact (Hnext 2)].
Defined.

(** C7 on an operating system that refuses both to unlock and to delete the
    lock file. *)
Lemma release_swallows_failures_witness :
  locked lock_x_held = true /\
  lockf_os os_faulty 1 = Some EIO /\
  unlink_os os_faulty 0 = Some EPERM /\
  exists self' w',
    release os_faulty lock_x_held after_acquire = (Return true, self', w') /\
    locked self' = false /\
    _lockfile self' = None.
Proof.
  split; [reflexivity|]. split; [reflexivity|]. split; [reflexivity|].
  destruct (release_swallows_failures os_faulty lock_x_held after_acquire eq_refl)
    as (self' & w' & Hrel & Hl & Hf & _).
  exists self', w'. split; [exact Hrel|]. split; [exact Hl | exact Hf].
Defined.

(** C8 on a process whose previous SIGTERM handler is handler 3 of the
    application: SIGTERM arrives at frames 5 and 9 while the function runs,
    the function raises, and the handler is never called: the log of the
    application holds the work only, and the handler of the decorator is
    still installed. *)
Lemma call_raise_drops_signal_witness :
  func logging_app 0%Z (state (idle (PyHandler 3)))
  = (Raise (AppError 1), [Worked 0]) /\
  last [5; 9] = Some 9 /\
  call logging_app Signal.init 0%Z [5; 9] (idle (PyHandler 3))
  = (Raise (AppError 1),
     {| _caught_signal := Some (SIGTERM, 9);
        old_signal_handler := Some (PyHandler 3) |},
     {| sigterm := GuardHandler; state := [Worked 0] |}).
Proof.
  split; [reflexivity|]. split; [reflexivity|].
  apply (call_raise_drops_signal logging_app Signal.init 0%Z [5; 9] 9
           (idle (PyHandler 3)) (AppError 1) [Worked 0]); reflexivity.
Defined.

(** C9 fails on the code: the block raises and [os.remove] fails on the
    temporary file. The failure is swallowed, the error of the block
    reaches the caller, and the temporary file is still there. *)
Lemma atomic_writer_remove_fails_counterexample :
  with_atomic_writer 4242 "settings.json" ModeW None (Some EACCES)
    (run_block block_fails) disk
  = (Raise (AppError 7), <["settings.json.4242.tmp" := "ne"]> disk) /\
  (<["settings.json.4242.tmp" := "ne"]> disk) !! "settings.json.4242.tmp"
  = Some "ne".
Proof. split; vm_compute; reflexivity. Qed.

(** C10 fails on the code: [lock_x_held] holds the lock, its blocking
    [acquire] times out, and the handle is locked afterwards, not
    unlocked. And on [lock_x_open], which kept the file object of an
    earlier call while the holder of the lock deleted the lock file, a
    call that makes an attempt and times out leaves no lock file on
    disk. *)
Lemma acquire_timeout_locked_counterexample :
  (acquire os_free 2 true lock_x_held after_acquire
   = Some (Raise AcquisitionError, lock_x_held,
           {| time_calls := 5; lockf_log := [None]; unlink_calls := 0;
              files := {[ "/tmp/x.lock" ]}; opened := ["/tmp/x.lock"];
              slept := [0.05%float] |}) /\
   locked lock_x_held = true) /\
  (acquire os_busy 2 true lock_x_open after_unlink
   = Some (Raise AcquisitionError, lock_x_open,
           {| time_calls := 6; lockf_log := [Some EAGAIN; Some EAGAIN];
              unlink_calls := 0; files := ∅; opened := ["/tmp/x.lock"];
              slept := [0.05%float; 0.05%float] |}) /\
   "/tmp/x.lock" ∉ (∅ : gset string)).
Proof.
  split; (split; [vm_compute; reflexivity|]); [reflexivity|].
  apply not_elem_of_empty.
Qed.

(** The amended C10 on the timed-out call of [acquire_busy_run]. *)
Lemma acquire_timeout_keeps_lockfile_witness :
  acquire os_busy 5 true lock_x fresh
  = Some (Raise AcquisitionError, lock_x_open, after_timeout) /\
  locked lock_x_open = locked lock_x /\
  "/tmp/x.lock" ∈ files after_timeout /\
  exists f, _lockfile lock_x_open = Some f /\
            opened after_timeout !! f = Some "/tmp/x.lock".
Proof.
  assert (Hacq : acquire os_busy 5 true lock_x fresh
                 = Some (Raise AcquisitionError, lock_x_open, after_timeout))
    by (vm_compute; reflexivity).
  split; [exact Hacq|].
  destruct (acquire_timeout_keeps_lockfile os_busy 5 true lock_x lock_x_open
              fresh after_timeout Hacq) as (Hl & _ & Hkept).
  split; [exact Hl|].
  destruct Hkept as (_ & _ & _ & Hnew); [vm_compute; lia|].
  exact (Hnew eq_refl).
Defined.

End Concrete.

(** * More properties of LockFile *)

Section LockMore.

Import Lock.

Variable os : OS.

(** Closes [acquire_frame] between worlds with the same files. *)
Ltac frame_same :=
  do 5 (split; [reflexivity|]); split; [apply union_subseteq_r|];
  let H := fresh "Hsome" in
  intros ? H; split; [exact H|]; split; reflexivity.

Lemma acquire_frame_refl (self : LockFile) (w : World) :
  acquire_frame self w self w.
Proof. frame_same. Qed.

Lemma acquire_frame_trans (s1 s2 s3 : LockFile) (w1 w2 w3 : World) :
  acquire_frame s1 w1 s2 w2 -> acquire_frame s2 w2 s3 w3 ->
  acquire_frame s1 w1 s3 w3.
Proof.
  intros (Hp & Ht & Hd & Hu & Hsub & Hsup & Hk)
         (Hp' & Ht' & Hd' & Hu' & Hsub' & Hsup' & Hk').
  split; [congruence|]. split; [congruence|]. split; [congruence|].
  split; [congruence|]. split; [now transitivity (files w2)|].
  split.
  - rewrite Hp in Hsup'. intros x Hx. apply Hsup' in Hx.
    apply elem_of_union in Hx as [Hx|Hx]; [now apply elem_of_union_l|].
    now apply Hsup.
  - intros f Hf. destruct (Hk f Hf) as (Hf2 & Ho2 & Hfi2).
    destruct (Hk' f Hf2) as (Hf3 & Ho3 & Hfi3).
    split; [exact Hf3|]. split; congruence.
Qed.

(** The clock reading of the timeout test changes nothing else. *)
Lemma after_test_frame (self : LockFile) (w : World) :
  acquire_frame self w self (after_test os self w).
Proof.
  unfold after_test. destruct (truthy (timeout self)); cbn; frame_same.
Qed.

(** A pass on an unlocked handle whose timeout test lets it go on: the lock
    file is opened unless it is open already, [fcntl.lockf] is called once,
    and its answer decides. *)
Lemma acquire_pass_attempt (b : bool) (start : float) (self : LockFile) (w : World) :
  locked self = false ->
  expired os self start (time_calls w) = false ->
  let self1 :=
    match _lockfile self with
    | Some _ => self
    | None => set_lockfile (Some (length (opened w))) self
    end in
  let w1 :=
    {| time_calls := time_calls (after_test os self w);
       lockf_log := lockf_os os (lockf_calls w) :: lockf_log w;
       unlink_calls := unlink_calls w;
       files := match _lockfile self with
                | Some _ => files w
                | None => {[ lockfile self ]} ∪ files w
                end;
       opened := match _lockfile self with
                 | Some _ => opened w
                 | None => opened w ++ [lockfile self]
                 end;
       slept := slept w |} in
  acquire_pass os b start self w
  = match lockf_os os (lockf_calls w) with
    | None => Done (Return true) (set_lock true self1) w1
    | Some e =>
        if is_contention e
        then if b then sleep_then_again os self1 w1
             else Done (Return false) self1 w1
        else Done (Raise (IOError e)) self1 w1
    end.
Proof.
  intros Hl He. unfold expired in He. unfold acquire_pass, after_test.
  destruct (truthy (timeout self)) eqn:Ht; cbn in He |- *; rewrite ?He, Hl;
    destruct (_lockfile self) as [f|] eqn:Hf; cbn; rewrite ?Hf; cbn;
    unfold lockf_calls; cbn;
    destruct (lockf_os os (length (lockf_log w))) as [e|]; cbn;
    try reflexivity;
    destruct (is_contention e); destruct b; reflexivity.
Qed.

(** Closes [acquire_frame] for a pass that opened the lock file. *)
Ltac frame_open :=
  do 4 (split; [reflexivity|]); split; [apply union_subseteq_r|];
  split; [reflexivity|]; intros; congruence.

(** Every pass keeps the frame of [acquire], and leaves a handle that has
    a file object whenever it says it is locked, if it found one. *)
Lemma acquire_pass_frame (b : bool) (start : float) (self : LockFile) (w : World) :
  match acquire_pass os b start self w with
  | Done _ self' w' | Again self' w' =>
      acquire_frame self w self' w' /\ (holds_file self -> holds_file self')
  end.
Proof.
  destruct (locked self) eqn:Hl.
  - rewrite (acquire_pass_held os b start self w Hl).
    unfold sleep_then_again, time_sleep.
    destruct (expired os self start (time_calls w));
      try destruct (sleep_error os (delay self)) as [se|];
      (split; [|trivial]);
      unfold after_test; destruct (truthy (timeout self)); cbn; frame_same.
  - destruct (expired os self start (time_calls w)) eqn:He.
    + rewrite (acquire_pass_expired os b start self w He).
      split; [cbn; frame_same | trivial].
    + rewrite (acquire_pass_attempt b start self w Hl He). cbv zeta.
      unfold holds_file, locked, sleep_then_again, time_sleep in *.
      destruct (_lockfile self) as [f|] eqn:Hf;
        destruct (lockf_os os (lockf_calls w)) as [e|];
        try destruct (is_contention e); try destruct b; cbn [delay set_lockfile];
        try destruct (sleep_error os (delay self)) as [se|];
        (split; [first [frame_same | frame_open]
                | cbn; rewrite ?Hf; intros Hh; eauto]).
Qed.

Lemma acquire_loop_frame (fuel : nat) (b : bool) (start : float)
    (self self' : LockFile) (w w' : World) (r : outcome bool) :
  acquire_loop os fuel b start self w = Some (r, self', w') ->
  acquire_frame self w self' w' /\ (holds_file self -> holds_file self').
Proof.
  revert self w. induction fuel as [|fuel IH]; intros self w; [discriminate|].
  cbn [acquire_loop].
  pose proof (acquire_pass_frame b start self w) as Hp.
  destruct (acquire_pass os b start self w) as [r1 s1 w1|s1 w1].
  - intros H. inversion H; subst. exact Hp.
  - destruct Hp as [Hf1 Hh1]. intros Hloop.
    destruct (IH s1 w1 Hloop) as [Hf2 Hh2].
    split; [|auto]. eapply acquire_frame_trans; eassumption.
Qed.

Lemma acquire_frame_holds (fuel : nat) (blocking : bool)
    (self self' : LockFile) (w w' : World) (r : outcome bool) :
  acquire os fuel blocking self w = Some (r, self', w') ->
  acquire_frame self w self' w' /\ (holds_file self -> holds_file self').
Proof.
  unfold acquire. destruct (locked self && negb blocking).
  - intros H. inversion H; subst. split; [apply acquire_frame_refl | trivial].
  - cbn [time_time]. intros Hloop.
    apply acquire_loop_frame in Hloop as [Hf Hh]. split; [|exact Hh].
    eapply acquire_frame_trans; [|exact Hf]. cbn. frame_same.
Qed.

(** X1: whatever [acquire] returns or raises, the handle keeps its path,
    timeout and delay, nothing is unlinked, no file disappears and the only
    file that can appear is the lock file; a handle that already has a file
    object keeps it, opens nothing and creates nothing. *)
Theorem acquire_only_adds_lockfile (fuel : nat) (blocking : bool)
    (self self' : LockFile) (w w' : World) (r : outcome bool) :
  acquire os fuel blocking self w = Some (r, self', w') ->
  lockfile self' = lockfile self /\
  timeout self' = timeout self /\
  delay self' = delay self /\
  unlink_calls w' = unlink_calls w /\
  files w ⊆ files w' /\
  files w' ⊆ {[ lockfile self ]} ∪ files w /\
  (forall f, _lockfile self = Some f ->
             _lockfile self' = Some f /\ opened w' = opened w /\
             files w' = files w).
Proof. intros H. now apply acquire_frame_holds in H as [Hf _]. Qed.

(** [release] leaves a handle that is not locked, with the same path,
    timeout and delay. *)
Lemma release_handle (self : LockFile) (w : World) :
  locked (snd (fst (release os self w))) = false /\
  lockfile (snd (fst (release os self w))) = lockfile self /\
  timeout (snd (fst (release os self w))) = timeout self /\
  delay (snd (fst (release os self w))) = delay self.
Proof.
  destruct (locked self) eqn:Hl.
  - rewrite (release_locked os self w Hl). now cbn.
  - rewrite (release_unlocked os self w Hl). now cbn.
Qed.

(** X2: through any sequence of [acquire] and [release] calls on one
    handle, whatever each returns or raises, a handle that says it is
    locked has a file object, and the path, timeout and delay it was
    created with. *)
Theorem run_ops_holds_file (ops : list op) (self self' : LockFile) (w w' : World) :
  holds_file self ->
  run_ops os ops self w = Some (self', w') ->
  holds_file self' /\
  lockfile self' = lockfile self /\
  timeout self' = timeout self /\
  delay self' = delay self.
Proof.
  revert self w. induction ops as [|[fuel blocking|] ops IH]; intros self w Hh.
  - intros H. inversion H; subst. now repeat split.
  - cbn [run_ops].
    destruct (acquire os fuel blocking self w) as [[[r s1] w1]|] eqn:Hacq;
      [|discriminate].
    intros Hrun.
    apply acquire_frame_holds in Hacq as [(Hp & Ht & Hd & _) Hh1].
    destruct (IH s1 w1 (Hh1 Hh) Hrun) as (Hh' & Hp' & Ht' & Hd').
    split; [exact Hh'|]. split; [congruence|]. split; congruence.
  - cbn [run_ops].
    pose proof (release_handle self w) as (Hl & Hp & Ht & Hd).
    destruct (release os self w) as [[r s1] w1]. cbn in Hl, Hp, Ht, Hd.
    intros Hrun.
    assert (Hh1 : holds_file s1) by (intros H; congruence).
    destruct (IH s1 w1 Hh1 Hrun) as (Hh' & Hp' & Ht' & Hd').
    split; [exact Hh'|]. split; [congruence|]. split; congruence.
Qed.

(** X3: [release] never sleeps, reads no clock and opens nothing; the only
    file it can remove is the lock file; on a handle that is not locked it
    changes nothing at all. *)
Theorem release_only_removes_lockfile (self : LockFile) (w : World) :
  let '(r, self', w') := release os self w in
  slept w' = slept w /\
  time_calls w' = time_calls w /\
  opened w' = opened w /\
  files w' ⊆ files w /\
  files w ⊆ {[ lockfile self ]} ∪ files w' /\
  (locked self = false -> self' = self /\ w' = w).
Proof.
  destruct (locked self) eqn:Hl.
  - rewrite (release_locked os self w Hl).
    unfold os_unlink, fcntl_lockf.
    destruct (_lockfile self); cbn;
      (split; [reflexivity|]; split; [reflexivity|]; split; [reflexivity|]);
      (destruct (decide (lockfile self ∈ files w)) as [Hin|Hnot];
       [destruct (unlink_os os (unlink_calls w))|]; cbn;
       (split; [|split; [|discriminate]]));
      try reflexivity; try apply union_subseteq_r;
      try apply subseteq_difference_l; try reflexivity.
    all: intros x Hx; destruct (decide (x = lockfile self)) as [->|Hne];
      [apply elem_of_union_l; now apply elem_of_singleton_2
      |apply elem_of_union_r, elem_of_difference; split;
       [exact Hx | now rewrite elem_of_singleton]].
  - rewrite (release_unlocked os self w Hl).
    repeat (split; [reflexivity|]). split; [apply union_subseteq_r|].
    now split.
Qed.

Lemma in_time_spec (self : LockFile) (w : World) (k : nat) :
  in_time os self w k <->
  expired os self (clock os (time_calls w)) (S (time_calls w) + k) = false.
Proof.
  unfold in_time, expired, reached, elapsed.
  destruct (truthy (timeout self)); cbn [andb].
  - split; [intros [H|H]; [discriminate | exact H] | now right].
  - split; [reflexivity | now left].
Qed.

(** A blocking loop on an unlocked handle that meets contention [k] times
    without timing out or failing to sleep: the answer to its next call of
    [fcntl.lockf] ends it, when that is not contention again. *)
Lemma acquire_loop_contended (k : nat) (start : float) (self : LockFile) (w : World) :
  locked self = false ->
  (forall j, j <= k -> expired os self start (time_calls w + j) = false) ->
  (forall j, j < k -> contended os (lockf_calls w + j) = true) ->
  k = 0 \/ can_sleep os self = true ->
  contended os (lockf_calls w + k) = false ->
  exists self1 w1,
    acquire_loop os (S k) true start self w
    = match lockf_os os (lockf_calls w + k) with
      | None => Some (Return true, set_lock true self1, w1)
      | Some e => Some (Raise (IOError e), self1, w1)
      end /\
    locked self1 = false /\
    is_Some (_lockfile self1) /\
    slept w1 = repeat (delay self) k ++ slept w /\
    lockf_calls w1 = S (lockf_calls w + k).
Proof.
  intros Hl. revert self w Hl.
  induction k as [|k IH]; intros self w Hl Hexp Hcont Hsleep Hlast.
  - pose proof (Hexp 0 ltac:(lia)) as He. rewrite Nat.add_0_r in He, Hlast |- *.
    unfold contended in Hlast.
    cbn [acquire_loop].
    rewrite (acquire_pass_attempt true start self w Hl He). cbv zeta.
    match goal with
    | |- context [Done (Return true) (set_lock true ?s1) ?w1] => exists s1, w1
    end.
    split.
    { destruct (lockf_os os (lockf_calls w)) as [e|]; [|reflexivity].
      now rewrite Hlast. }
    unfold locked, lockf_calls in *.
    destruct (_lockfile self) eqn:Hf; cbn; rewrite ?Hf; repeat split; eauto.
  - destruct Hsleep as [Hsleep|Hsleep]; [discriminate|].
    pose proof (Hexp 0 ltac:(lia)) as He. rewrite Nat.add_0_r in He.
    pose proof (Hcont 0 ltac:(lia)) as Hc. rewrite Nat.add_0_r in Hc.
    unfold contended in Hc.
    remember (S k) as n eqn:Hn. cbn [acquire_loop]. subst n.
    rewrite (acquire_pass_attempt true start self w Hl He). cbv zeta.
    destruct (lockf_os os (lockf_calls w)) as [e|] eqn:Ho; [|discriminate].
    rewrite Hc.
    set (self1 := match _lockfile self with
                  | Some _ => self
                  | None => set_lockfile (Some (length (opened w))) self
                  end).
    assert (Hl1 : locked self1 = false)
      by (subst self1; unfold locked in *; now destruct (_lockfile self)).
    assert (Ht1 : timeout self1 = timeout self)
      by (subst self1; now destruct (_lockfile self)).
    assert (Hd1 : delay self1 = delay self)
      by (subst self1; now destruct (_lockfile self)).
    unfold sleep_then_again, time_sleep. rewrite Hd1.
    unfold can_sleep in Hsleep.
    destruct (sleep_error os (delay self)) as [se|] eqn:Hd; [discriminate|].
    match goal with
    | |- context [acquire_loop os (S k) true start self1 ?w1] =>
        set (w1' := w1)
    end.
    assert (Hc1 : lockf_calls w1' = S (lockf_calls w)) by reflexivity.
    assert (Hs1 : slept w1' = delay self :: slept w) by reflexivity.
    assert (Htc : forall j, expired os self1 start (time_calls w1' + j)
                            = expired os self start (time_calls w + S j)).
    { intros j. unfold expired. rewrite Ht1. subst w1'. cbn.
      unfold after_test.
      destruct (truthy (timeout self)); [|reflexivity]. cbn.
      now replace (S (time_calls w + j)) with (time_calls w + S j) by lia. }
    destruct (IH self1 w1' Hl1) as (s2 & w2 & Hloop & Hl2 & Hf2 & Hs2 & Hc2).
    + intros j Hj. rewrite Htc. apply Hexp. lia.
    + intros j Hj. rewrite Hc1.
      replace (S (lockf_calls w) + j) with (lockf_calls w + S j) by lia.
      apply Hcont. lia.
    + right. unfold can_sleep. now rewrite Hd1, Hd.
    + rewrite Hc1.
      now replace (S (lockf_calls w) + k) with (lockf_calls w + S k) by lia.
    + exists s2, w2. split.
      { rewrite Hloop, Hc1.
        now replace (S (lockf_calls w) + k) with (lockf_calls w + S k) by lia. }
      split; [exact Hl2|]. split; [exact Hf2|]. split.
      * rewrite Hs2, Hd1, Hs1. apply repeat_snoc_app.
      * rewrite Hc2, Hc1. lia.
Qed.

(** X4: a blocking [acquire] on an unlocked handle that meets contention
    [k] times before the lock is granted, without timing out and with a
    [delay] that [time.sleep] accepts (unless the lock is granted at
    once), returns [True] after exactly [k] sleeps of [delay]
    and [k + 1] calls of [fcntl.lockf], with the lock flag set and a file
    object stored. *)
Theorem acquire_granted (k : nat) (self : LockFile) (w : World) :
  locked self = false ->
  (forall j, j <= k -> in_time os self w j) ->
  (forall j, j < k -> contended os (lockf_calls w + j) = true) ->
  k = 0 \/ can_sleep os self = true ->
  lockf_os os (lockf_calls w + k) = None ->
  exists self' w',
    acquire os (S k) true self w = Some (Return true, self', w') /\
    locked self' = true /\
    is_Some (_lockfile self') /\
    slept w' = repeat (delay self) k ++ slept w /\
    lockf_calls w' = S (lockf_calls w + k).
Proof.
  intros Hl Hin Hcont Hsleep Hfree. unfold acquire. rewrite Hl.
  cbn [andb time_time].
  destruct (acquire_loop_contended k (clock os (time_calls w)) self
              {| time_calls := S (time_calls w); lockf_log := lockf_log w;
                 unlink_calls := unlink_calls w; files := files w;
                 opened := opened w; slept := slept w |} Hl)
    as (s1 & w1 & Hloop & Hl1 & Hf1 & Hs1 & Hc1).
  - intros j Hj. cbn. apply in_time_spec. now apply Hin.
  - exact Hcont.
  - exact Hsleep.
  - unfold contended. cbn. fold (lockf_calls w). now rewrite Hfree.
  - change (lockf_calls {| time_calls := S (time_calls w) |})
      with (lockf_calls w) in *.
    rewrite Hfree in Hloop.
    exists (set_lock true s1), w1. split; [exact Hloop|].
    split; [reflexivity|]. split; [exact Hf1|]. now split.
Qed.

(** X5: an error of [fcntl.lockf] other than [EACCES] and [EAGAIN] is not
    retried: the blocking [acquire] that meets it, after [k] rounds of
    contention in which neither the timeout test fired nor the sleep
    failed, raises that [IOError] at once and leaves the handle
    unlocked. *)
Theorem acquire_fatal_error (k : nat) (self : LockFile) (w : World) (e : errno) :
  locked self = false ->
  (forall j, j <= k -> in_time os self w j) ->
  (forall j, j < k -> contended os (lockf_calls w + j) = true) ->
  k = 0 \/ can_sleep os self = true ->
  lockf_os os (lockf_calls w + k) = Some e ->
  is_contention e = false ->
  exists self' w',
    acquire os (S k) true self w = Some (Raise (IOError e), self', w') /\
    locked self' = false /\
    slept w' = repeat (delay self) k ++ slept w /\
    lockf_calls w' = S (lockf_calls w + k).
Proof.
  intros Hl Hin Hcont Hsleep Herr Hfatal. unfold acquire. rewrite Hl.
  cbn [andb time_time].
  destruct (acquire_loop_contended k (clock os (time_calls w)) self
              {| time_calls := S (time_calls w); lockf_log := lockf_log w;
                 unlink_calls := unlink_calls w; files := files w;
                 opened := opened w; slept := slept w |} Hl)
    as (s1 & w1 & Hloop & Hl1 & Hf1 & Hs1 & Hc1).
  - intros j Hj. cbn. apply in_time_spec. now apply Hin.
  - exact Hcont.
  - exact Hsleep.
  - unfold contended. cbn. fold (lockf_calls w). now rewrite Herr.
  - change (lockf_calls {| time_calls := S (time_calls w) |})
      with (lockf_calls w) in *.
    rewrite Herr in Hloop.
    exists s1, w1. split; [exact Hloop|]. split; [exact Hl1|]. now split.
Qed.

(** A blocking pass never returns [False]. *)
Lemma acquire_pass_blocking (start : float) (self self' : LockFile)
    (w w' : World) (v : bool) :
  acquire_pass os true start self w = Done (Return v) self' w' -> v = true.
Proof.
  unfold acquire_pass, sleep_then_again, time_sleep.
  destruct (truthy (timeout self)); cbn;
    try destruct (PrimFloat.leb _ _); cbn; try discriminate;
    destruct (locked self); try discriminate;
    destruct (sleep_error os (delay self)) as [se|] eqn:Hd; try discriminate;
    destruct (_lockfile self) eqn:Hf; cbn; rewrite ?Hf; cbn;
    destruct (lockf_os os _) as [e|]; cbn;
    try (destruct e; cbn; rewrite ?Hd); try discriminate;
    intros H; inversion H; reflexivity.
Qed.

(** [acquire] returns [True] only on a handle that was not locked, and a
    blocking [acquire] never returns [False]. *)
Lemma acquire_return (fuel : nat) (blocking : bool) (self self' : LockFile)
    (w w' : World) (v : bool) :
  acquire os fuel blocking self w = Some (Return v, self', w') ->
  (v = true -> locked self = false) /\ (blocking = true -> v = true).
Proof.
  unfold acquire. destruct (locked self) eqn:Hl.
  - destruct blocking; cbn [andb negb].
    + cbn [time_time]. intros Hloop.
      destruct (acquire_loop_held os fuel true (clock os (time_calls w)) self
                  {| time_calls := S (time_calls w); lockf_log := lockf_log w;
                     unlink_calls := unlink_calls w; files := files w;
                     opened := opened w; slept := slept w |} Hl)
        as [Hn | (e & w1 & Hr & _)]; congruence.
    + intros H. inversion H; subst. split; discriminate.
  - cbn [andb time_time]. split; [reflexivity|]. intros ->.
    revert H. generalize (clock os (time_calls w)) as start.
    intros start.
    set (w0 := {| time_calls := S (time_calls w) |}). clearbody w0.
    revert self w0 Hl. induction fuel as [|fuel IH]; intros self w0 Hl;
      [discriminate|].
    cbn [acquire_loop].
    destruct (acquire_pass os true start self w0) as [r s1 w1|s1 w1] eqn:Hp.
    + intros H. inversion H; subst. eapply acquire_pass_blocking, Hp.
    + pose proof (acquire_pass_unlocked os true start self w0 Hl) as Hu.
      rewrite Hp in Hu. destruct Hu as (Hl1 & _). now apply IH.
Qed.

(** X6: after an [acquire] that returned [True], [release] gives back the
    handle as it was before the call, without a file object: acquiring and
    releasing a handle that had none restores it exactly, so the handle can
    be used again. *)
Theorem acquire_release_round_trip (fuel : nat) (blocking : bool)
    (self self1 : LockFile) (w w1 : World) :
  acquire os fuel blocking self w = Some (Return true, self1, w1) ->
  exists w2,
    release os self1 w1 = (Return true, set_lockfile None self, w2) /\
    (_lockfile self = None -> set_lockfile None self = self).
Proof.
  intros Hacq.
  pose proof (acquire_true_locked os fuel blocking self self1 w w1 Hacq) as Hl1.
  destruct (acquire_return fuel blocking self self1 w w1 true Hacq) as [Hl _].
  specialize (Hl eq_refl).
  apply acquire_frame_holds in Hacq as [(Hp & Ht & Hd & _) _].
  rewrite (release_locked os self1 w1 Hl1). eexists. split.
  - f_equal. f_equal. unfold locked in Hl.
    destruct self, self1; cbn in *; subst. reflexivity.
  - intros Hnone. destruct self; cbn in *; subst. reflexivity.
Qed.

(** X7: a [with] statement whose [acquire] succeeded returns or raises
    exactly what its body does, and in either case leaves the handle
    released: not locked, and without a file object. *)
Theorem with_lock_releases {A : Type} (fuel : nat) (self self1 : LockFile)
    (body : World -> outcome A * World) (w w1 : World) (v : bool) :
  acquire os fuel true self w = Some (Return v, self1, w1) ->
  exists w3,
    with_lock os fuel self body w
    = Some (fst (body w1), set_lockfile None self, w3) /\
    locked (set_lockfile None self) = false /\
    slept w3 = slept (snd (body w1)).
Proof.
  intros Hacq.
  destruct (acquire_return fuel true self self1 w w1 v Hacq) as [Hl Hv].
  specialize (Hv eq_refl). subst v. specialize (Hl eq_refl).
  pose proof (acquire_true_locked os fuel true self self1 w w1 Hacq) as Hl1.
  pose proof Hacq as Hframe.
  apply acquire_frame_holds in Hframe as [(Hp & Ht & Hd & _) _].
  unfold with_lock. rewrite Hacq.
  destruct (body w1) as [r wb] eqn:Hb. cbn [fst snd].
  rewrite (release_locked os self1 wb Hl1).
  exists (snd (os_unlink os (lockfile self1)
                 (snd (fcntl_lockf os (_lockfile self1) wb)))).
  split; [|split; [exact Hl|]].
  - do 3 f_equal. unfold locked in Hl.
    destruct self, self1; cbn in *; subst. reflexivity.
  - unfold fcntl_lockf. now destruct (_lockfile self1).
Qed.

End LockMore.

(** * More properties of uninterruptible *)

Section GuardMore.

Import Signal.

Context {St Args : Type}.
Variable app : App St Args.

(** X8: whenever the wrapped function returns, [__call__] puts back the
    disposition of SIGTERM found at entry and remembers it in
    [old_signal_handler]. That disposition is in place after the call,
    with one exception: when a signal arrived and the previous handler is
    a callable of the application, that handler runs after the restore, on
    a process that has the previous disposition again, and the process
    after the call is the one the handler leaves. *)
Theorem call_restores_on_return (self : uninterruptible) (args : Args)
    (arrivals : list frame) (p : Process St) (v : pyval) (st : St) :
  func app args (state p) = (Return v, st) ->
  old_signal_handler (snd (fst (call app self args arrivals p)))
  = Some (sigterm p) /\
  match sigterm p, last arrivals with
  | PyHandler id, Some fr =>
      snd (call app self args arrivals p)
      = snd (run_handler app id SIGTERM fr
               {| sigterm := sigterm p; state := st |})
  | _, _ =>
      snd (call app self args arrivals p)
      = {| sigterm := sigterm p; state := st |}
  end.
Proof.
  intros Hf. unfold call, signal_getsignal, signal_signal. cbn. rewrite Hf.
  destruct (last arrivals) as [fr|] eqn:Hlast.
  - rewrite (arrivals_caught arrivals fr _ Hlast). cbn.
    destruct (sigterm p) as [| |h|]; cbn; try now split.
    destruct (run_handler app h SIGTERM fr _) as [[v'|e] p']; now split.
  - apply last_None in Hlast. subst arrivals. cbn.
    destruct (sigterm p); now split.
Qed.

(** X9: once a call has been left by an exception of the wrapped function,
    a later call that returns finds the handler of the decorator as the
    previous handler: it leaves that handler installed, and whatever
    SIGTERM arrives during it neither ends the process nor reaches a
    handler of the application. *)
Theorem call_after_raise_swallows (self : uninterruptible) (args1 args2 : Args)
    (arr1 arr2 : list frame) (p : Process St) (e : exn) (v : pyval)
    (st1 st2 : St) :
  func app args1 (state p) = (Raise e, st1) ->
  func app args2 st1 = (Return v, st2) ->
  let '(r1, self1, p1) := call app self args1 arr1 p in
  r1 = Raise e /\
  exists self2,
    call app self1 args2 arr2 p1
    = (Return PyNone, self2, {| sigterm := GuardHandler; state := st2 |}).
Proof.
  intros H1 H2. rewrite (call_raise app self args1 arr1 p e st1 H1).
  split; [reflexivity|].
  unfold call, signal_getsignal, signal_signal. cbn. rewrite H2.
  match goal with
  | |- context [fold_left ?f arr2 ?g] => destruct (fold_left f arr2 g)
      as [caught old]
  end.
  cbn. destruct caught as [[signum fr]|]; cbn; eexists; reflexivity.
Qed.

(** X21: when the wrapped function returns and SIGTERM was caught while it
    ran, [__call__] restores the previous handler and then acts as the
    previous disposition would have: a callable handler is called with the
    caught signal number and frame, on the process with the previous
    disposition back in place; the default disposition ends the process
    with [sys.exit(0)]; an ignored signal has no further effect. *)
Theorem call_redelivers (self : uninterruptible) (args : Args)
    (arrivals : list frame) (fr : frame) (p : Process St) (v : pyval) (st : St) :
  func app args (state p) = (Return v, st) ->
  last arrivals = Some fr ->
  let caught :=
    {| _caught_signal := Some (SIGTERM, fr);
       old_signal_handler := Some (sigterm p) |} in
  let restored := {| sigterm := sigterm p; state := st |} in
  call app self args arrivals p
  = match sigterm p with
    | PyHandler id =>
        let '(r, p') := run_handler app id SIGTERM fr restored in
        (match r with Raise e => Raise e | Return _ => Return PyNone end,
         caught, p')
    | GuardHandler => (Return PyNone, caught, restored)
    | SIG_DFL => (Raise (SystemExit 0), caught, restored)
    | SIG_IGN => (Return PyNone, caught, restored)
    end.
Proof.
  intros Hf Hlast. unfold call, signal_getsignal, signal_signal. cbn.
  rewrite Hf, (arrivals_caught arrivals fr _ Hlast). cbn.
  destruct (sigterm p) as [| |h|]; cbn; try reflexivity.
  destruct (run_handler app h SIGTERM fr _) as [[v'|e] p']; reflexivity.
Qed.

End GuardMore.

(** * More properties of atomic_writer *)

Section WriterMore.

Import Atomic.

Lemma append_assoc (s t u : string) : (s +:+ t) +:+ u = s +:+ (t +:+ u).
Proof.
  induction s as [|a s IH]; [reflexivity|].
  change (String a ((s +:+ t) +:+ u) = String a (s +:+ (t +:+ u))).
  now rewrite IH.
Qed.

Lemma append_nil_r (s : string) : s +:+ "" = s.
Proof.
  induction s as [|a s IH]; [reflexivity|].
  change (String a (s +:+ "") = String a s). now rewrite IH.
Qed.

(** The chunks are written one after the other. *)
Lemma written_concat (ws : list string) (content : string) :
  written ws content = content +:+ fold_right String.append "" ws.
Proof.
  unfold written. revert content.
  induction ws as [|data ws IH]; intros content; cbn [fold_left fold_right].
  - now rewrite append_nil_r.
  - rewrite IH. apply append_assoc.
Qed.


(** X11: the mode applies to the temporary file, not to the target. When
    no temporary file is left over from an earlier run, a block that
    finishes replaces the target by exactly the chunks it wrote, in append
    mode as in write mode, whatever the target held and whether or not
    [os.remove] fails. *)
Theorem atomic_writer_replaces_target (pid : N) (fpath : string) (m : mode)
    (ws : list string) (fs : FS) (remove_fault : option errno) :
  fs !! temppath pid fpath = None ->
  with_atomic_writer pid fpath m None remove_fault
    (run_block {| writes := ws; raises := None |}) fs
  = (Return tt, <[fpath := fold_right String.append "" ws]> fs).
Proof.
  intros Hnone. rewrite with_atomic_writer_cases.
  rewrite (run_block_spec _ {| name := temppath pid fpath; fmode := m |}).
  cbn [fst snd raises writes]. rewrite lookup_insert_eq, delete_insert_eq.
  rewrite (delete_id _ _ Hnone). unfold initial_content. rewrite Hnone.
  rewrite written_concat. now destruct m.
Qed.

End WriterMore.

(** * Properties of the AppleScript helpers and of appinfo *)

Section ScriptFacts.

Import Script.

Lemma count_char_app (c : ascii) (s t : string) :
  count_char c (s +:+ t) = count_char c s + count_char c t.
Proof.
  induction s as [|a s IH]; [reflexivity|].
  change (count_char c (String a (s +:+ t))
          = count_char c (String a s) + count_char c t).
  cbn [count_char]. rewrite IH. lia.
Qed.

Lemma length_append (s t : string) :
  String.length (s +:+ t) = String.length s + String.length t.
Proof.
  induction s as [|a s IH]; [reflexivity|].
  change (S (String.length (s +:+ t)) = S (String.length s) + String.length t).
  now rewrite IH.
Qed.

Lemma replace_char_cons (c : ascii) (new : string) (a : ascii) (s : string) :
  replace_char c new (String a s)
  = if Ascii.eqb a c then new +:+ replace_char c new s
    else String a (replace_char c new s).
Proof. reflexivity. Qed.

(** X12: escaping distributes over concatenation: a text can be escaped
    piece by piece. *)
Theorem applescriptify_app (s t : string) :
  applescriptify (s +:+ t) = applescriptify s +:+ applescriptify t.
Proof.
  unfold applescriptify. induction s as [|a s IH]; [reflexivity|].
  change (String a s +:+ t) with (String a (s +:+ t)).
  rewrite !replace_char_cons, IH.
  destruct (Ascii.eqb a dquote); [|reflexivity].
  symmetry. apply append_assoc.
Qed.

Lemma applescriptify_quotes_length (s : string) :
  String.length (applescriptify s)
  = String.length s + 12 * count_char dquote s.
Proof.
  unfold applescriptify. induction s as [|a s IH]; [reflexivity|].
  rewrite replace_char_cons. cbn [count_char String.length].
  destruct (Ascii.eqb a dquote) eqn:E.
  - rewrite length_append, IH.
    change (String.length quote_expr) with 13. lia.
  - cbn [String.length]. rewrite IH. lia.
Qed.

Lemma applescriptify_count (s : string) :
  count_char dquote (applescriptify s) = 2 * count_char dquote s.
Proof.
  unfold applescriptify. induction s as [|a s IH]; [reflexivity|].
  rewrite replace_char_cons. cbn [count_char].
  destruct (Ascii.eqb a dquote) eqn:E.
  - rewrite count_char_app, IH.
    change (count_char dquote quote_expr) with 2. lia.
  - cbn [count_char]. rewrite E, IH. lia.
Qed.

(** X13: every double quote of the text becomes two in the escaped text
    and no other is added, so the escaped text holds an even number of
    them; each costs twelve more characters. *)
Theorem applescriptify_quotes (s : string) :
  count_char dquote (applescriptify s) = 2 * count_char dquote s /\
  String.length (applescriptify s)
  = String.length s + 12 * count_char dquote s.
Proof.
  split; [apply applescriptify_count | apply applescriptify_quotes_length].
Qed.

Lemma append_inj_l (s t u : string) : s +:+ t = s +:+ u -> t = u.
Proof.
  induction s as [|a s IH]; [trivial|].
  change (String a (s +:+ t) = String a (s +:+ u) -> t = u).
  intros H. inversion H. auto.
Qed.

(** X14: escaping loses nothing: two texts with the same escaped form are
    the same text. *)
Theorem applescriptify_inj (s t : string) :
  applescriptify s = applescriptify t -> s = t.
Proof.
  unfold applescriptify. revert t.
  induction s as [|a s IH]; intros [|b t]; rewrite ?replace_char_cons.
  - reflexivity.
  - destruct (Ascii.eqb b dquote); discriminate.
  - destruct (Ascii.eqb a dquote); discriminate.
  - destruct (Ascii.eqb a dquote) eqn:Ea; destruct (Ascii.eqb b dquote) eqn:Eb.
    + apply Ascii.eqb_eq in Ea, Eb. subst. intros H.
      apply append_inj_l in H. f_equal. now apply IH.
    + intros H. inversion H as [[Hb Hrest]]. subst b. discriminate.
    + intros H. inversion H as [[Ha Hrest]]. subst a. discriminate.
    + intros H. inversion H. f_equal. now apply IH.
Qed.

(** X15: a text is left as it is exactly when it holds no double quote. *)
Theorem applescriptify_id_iff (s : string) :
  applescriptify s = s <-> count_char dquote s = 0.
Proof.
  split.
  - intros H. apply (f_equal String.length) in H.
    pose proof (applescriptify_quotes_length s) as Hl. lia.
  - unfold applescriptify. induction s as [|a s IH]; [reflexivity|].
    rewrite replace_char_cons. cbn [count_char].
    destruct (Ascii.eqb a dquote); [discriminate|].
    intros H. f_equal. now apply IH.
Qed.

Lemma is_ascii_cons (a : ascii) (s : string) :
  is_ascii (String a s) = is_ascii (String a EmptyString) && is_ascii s.
Proof. destruct a. cbn [is_ascii]. now rewrite andb_true_r. Qed.

Lemma is_ascii_app (s t : string) :
  is_ascii (s +:+ t) = is_ascii s && is_ascii t.
Proof.
  induction s as [|a s IH]; [reflexivity|].
  change (String a s +:+ t) with (String a (s +:+ t)).
  rewrite (is_ascii_cons a (s +:+ t)), (is_ascii_cons a s), IH.
  now rewrite andb_assoc.
Qed.

(** Escaping adds ASCII characters only. *)
Lemma is_ascii_applescriptify (s : string) :
  is_ascii (applescriptify s) = is_ascii s.
Proof.
  unfold applescriptify. induction s as [|a s IH]; [reflexivity|].
  rewrite replace_char_cons. destruct (Ascii.eqb a dquote) eqn:E.
  - apply Ascii.eqb_eq in E. subst a.
    rewrite is_ascii_app, IH. reflexivity.
  - rewrite (is_ascii_cons a (replace_char _ _ s)), (is_ascii_cons a s), IH.
    reflexivity.
Qed.

Variable host : Host.

Lemma run_script_ran (script : string) :
  snd (run_script host script) = [osascript host script].
Proof.
  unfold run_script, run_applescript, run_command, osascript.
  rewrite !app_nil_r.
  destruct (path_exists host script); reflexivity.
Qed.

(** X16: [set_config] escapes all three texts it pastes into the script:
    when a bundle identifier is given or found in the environment and the
    name, the value and the bundle identifier are ASCII, it runs one
    [osascript] command, in whose script the double quotes come in pairs
    whatever double quotes the three texts hold. *)
Theorem set_config_quotes (name value : string) (bundleid : option string)
    (exportable : bool) (b : text) :
  bundle_or_env host bundleid = Some b ->
  is_ascii name = true ->
  is_ascii value = true ->
  is_ascii (chars b) = true ->
  exists script,
    snd (set_config host name value bundleid exportable)
    = [osascript host script] /\
    count_char dquote script
    = 2 * (4 + count_char dquote name + count_char dquote value
           + count_char dquote (chars b)).
Proof.
  intros Hb Hn Hv Hc. unfold set_config. rewrite Hb.
  assert (Ht : applescriptify_text b = Some (applescriptify (chars b))).
  { destruct b as [s|s]; cbn in Hc |- *; [reflexivity | now rewrite Hc]. }
  rewrite Ht. unfold format_field.
  rewrite !is_ascii_applescriptify, Hn, Hv, Hc.
  eexists. split; [apply run_script_ran|].
  unfold AS_CONFIG_SET. rewrite !count_char_app.
  rewrite !applescriptify_count.
  generalize (count_char dquote name) (count_char dquote value)
    (count_char dquote (chars b)).
  intros n v c. destruct exportable; cbn; lia.
Qed.

(** X17: [run_trigger] escapes its argument but pastes the trigger name
    and the bundle identifier as they are: when the texts are ASCII, so
    that [format] accepts them, it runs one [osascript] command, and every
    double quote in the name or in the bundle identifier adds one unpaired
    double quote to its script. Without a bundle identifier the script
    names the workflow [None]. *)
Theorem run_trigger_quotes (name : string) (bundleid arg : option string)
    (b : string) :
  is_ascii name = true ->
  (forall a, arg = Some a -> is_ascii a = true) ->
  format_opt (bundle_or_env host bundleid) = Some b ->
  exists script,
    snd (run_trigger host name bundleid arg) = [osascript host script] /\
    count_char dquote script
    = 6 + count_char dquote name + count_char dquote b
      + match arg with
        | Some a => if truthy arg then 2 + 2 * count_char dquote a else 0
        | None => 0
        end.
Proof.
  intros Hn Ha Hb. unfold run_trigger. rewrite Hb.
  unfold format_field. rewrite Hn.
  destruct arg as [a|]; [destruct (truthy (Some a))|].
  - rewrite is_ascii_applescriptify, (Ha a eq_refl).
    eexists. split; [apply run_script_ran|].
    unfold AS_TRIGGER. rewrite !count_char_app, applescriptify_count.
    generalize (count_char dquote name) (count_char dquote b)
      (count_char dquote a).
    intros n c k. cbn. lia.
  - eexists. split; [apply run_script_ran|].
    unfold AS_TRIGGER. rewrite !count_char_app.
    generalize (count_char dquote name) (count_char dquote b).
    intros n c. cbn. lia.
  - eexists. split; [apply run_script_ran|].
    unfold AS_TRIGGER. rewrite !count_char_app.
    generalize (count_char dquote name) (count_char dquote b).
    intros n c. cbn. lia.
Qed.

(** X18: without a bundle identifier, given or in the environment,
    [set_config] and [unset_config] raise [AttributeError] before they run
    any command. *)
Theorem config_without_bundleid (name value : string)
    (bundleid : option string) (exportable : bool) :
  truthy bundleid = false ->
  getenv host "alfred_workflow_bundleid" = None ->
  set_config host name value bundleid exportable = (AttributeError, []) /\
  unset_config host name bundleid = (AttributeError, []).
Proof.
  intros Ht He. unfold set_config, unset_config, bundle_or_env.
  now rewrite Ht, He.
Qed.


Lemma strip_blank (s : string) : blank s = true -> strip s = EmptyString.
Proof.
  unfold strip. induction s as [|a s IH]; [reflexivity|].
  cbn [blank lstrip]. intros [Ha Hs]%andb_true_iff. rewrite Ha. now apply IH.
Qed.

Lemma rstrip_cons (a : ascii) (s : string) :
  is_space a = false -> rstrip (String a s) = String a (rstrip s).
Proof. intros Ha. cbn [rstrip]. destruct (rstrip s); now rewrite ?Ha. Qed.

(** A text that is not blank is stripped to one that starts with a
    character that is no whitespace. *)
Lemma strip_not_blank (s : string) :
  blank s = false ->
  exists a rest, strip s = String a rest /\ is_space a = false.
Proof.
  unfold strip. induction s as [|a s IH]; [discriminate|].
  cbn [blank lstrip]. destruct (is_space a) eqn:Ha; cbn [andb].
  - exact IH.
  - intros _. exists a, (rstrip s). split; [now apply rstrip_cons | exact Ha].
Qed.

Lemma first_line_no_newline (s : string) :
  count_char newline (first_line s) = 0.
Proof.
  induction s as [|a s IH]; [reflexivity|].
  cbn [first_line]. destruct (Ascii.eqb a newline) eqn:E; [reflexivity|].
  cbn [count_char]. now rewrite E, IH.
Qed.

(** X19: when [mdfind] prints nothing but whitespace, [appinfo] returns
    [None] and does not run [mdls]. *)
Theorem appinfo_not_found (app_name out : string) :
  check_output host (mdfind_cmd host app_name) = Return out ->
  blank out = true ->
  appinfo host app_name = (Ok None, [mdfind_cmd host app_name]).
Proof.
  intros Hout Hb. unfold appinfo, run_command. rewrite Hout.
  now rewrite (strip_blank out Hb).
Qed.

(** X20: when [mdfind] prints anything else, [appinfo] runs [mdls] next,
    on the first line of the stripped output: a path that is not empty,
    holds no newline and does not start with whitespace. *)
Theorem appinfo_path (app_name out : string) :
  check_output host (mdfind_cmd host app_name) = Return out ->
  blank out = false ->
  exists app_path,
    snd (appinfo host app_name)
    = [mdfind_cmd host app_name; mdls_cmd app_path] /\
    app_path = first_line (strip out) /\
    count_char newline app_path = 0 /\
    exists a rest, app_path = String a rest /\ is_space a = false.
Proof.
  intros Hout Hb. unfold appinfo, run_command. rewrite Hout.
  destruct (strip_not_blank out Hb) as (a & rest & Hs & Ha). rewrite Hs.
  exists (first_line (String a rest)). split; [|split; [reflexivity|split]].
  - destruct (check_output host (mdls_cmd _)) as [out2|e]; [|reflexivity].
    now destruct (strip out2).
  - apply first_line_no_newline.
  - cbn [first_line].
    destruct (Ascii.eqb a newline) eqn:E.
    + apply Ascii.eqb_eq in E. subst a. discriminate.
    + eexists _, _. split; [reflexivity | exact Ha].
Qed.

End ScriptFacts.

(** * The further models on concrete runs *)

Section RunsMore.

Import Lock Signal Atomic Script.

(** The text of the docstring of [applescriptify]: [g "python" test]. *)
Example applescriptify_run :
  applescriptify ("g " +:+ q +:+ "python" +:+ q +:+ " test")
  = "g " +:+ q +:+ " & quote & " +:+ q +:+ "python" +:+
    q +:+ " & quote & " +:+ q +:+ " test".
Proof. reflexivity. Qed.

(** [run_trigger('go', arg='x')] without a bundle identifier anywhere. *)
Example run_trigger_run :
  run_trigger mac "go" None (Some "x")
  = (Ok tt,
     [["/usr/bin/osascript"; "-l"; "AppleScript"; "-e";
       nl +:+ "tell application " +:+ q +:+ "Alfred" +:+ q +:+ nl +:+
       "run trigger " +:+ q +:+ "go" +:+ q +:+ " in workflow " +:+
       q +:+ "None" +:+ q +:+ " with argument " +:+ q +:+ "x" +:+ q +:+ nl +:+
       "end tell" +:+ nl]]).
Proof. reflexivity. Qed.

(** A bundle identifier outside ASCII in the environment: [set_config]
    and [unset_config] fail to decode it, [run_trigger] pastes the bytes
    as they are. *)
Example config_latin_run :
  set_config mac_latin "greeting" "hi" None false = (UnicodeDecodeError, []) /\
  unset_config mac_latin "greeting" None = (UnicodeDecodeError, []) /\
  fst (run_trigger mac_latin "go" None None) = Ok tt.
Proof. repeat split; reflexivity. Qed.

(** [appinfo('Safari')] where [mdfind] prints two paths. *)
Example appinfo_run :
  fst (appinfo mac "Safari")
  = Ok (Some {| Script.name := "Safari"; path := "/Applications/Safari.app";
                bundleid := "com.apple.Safari" |}) /\
  mdfind_cmd mac "Safari"
  = ["mdfind"; "-onlyin"; "/Applications"; "-onlyin"; "/Users/me/Applications";
     "(kMDItemContentTypeTree == com.apple.application &&" +:+
     "(kMDItemDisplayName == " +:+ q +:+ "Safari" +:+ q +:+
     " || kMDItemFSName == " +:+ q +:+ "Safari.app" +:+ q +:+ "))"].
Proof. split; reflexivity. Qed.

(** The lock is granted at the third attempt, after two sleeps. *)
Example acquire_granted_run :
  acquire os_busy_twice 3 true lock_forever fresh
  = Some (Return true, lock_forever_held,
          {| time_calls := 1; lockf_log := [None; Some EAGAIN; Some EAGAIN];
             unlink_calls := 0; files := {[ "/tmp/x.lock" ]};
             opened := ["/tmp/x.lock"];
             slept := [0.05%float; 0.05%float] |}).
Proof. vm_compute. reflexivity. Qed.

(** A block that removes the target and finishes: the commit puts the new
    content in place. *)
Example atomic_writer_body_run :
  with_atomic_writer 4242 "settings.json" ModeW None None
    body_removes_target disk
  = (Return tt, {[ "settings.json" := "new" ]}).
Proof. vm_compute. reflexivity. Qed.

(** A handler that makes the process ignore SIGTERM runs after the
    restore, so its choice stands after the call. *)
Example call_handler_run :
  call ignoring_app Signal.init 21%Z [5; 9] (idle (PyHandler 3))
  = (Return PyNone,
     {| _caught_signal := Some (SIGTERM, 9);
        old_signal_handler := Some (PyHandler 3) |},
     {| sigterm := SIG_IGN; state := [Handled 3 SIGTERM 9; Worked 21] |}).
Proof. reflexivity. Qed.

End RunsMore.

(** * The further properties at concrete inputs *)

Section ConcreteMore.

Import Lock Signal Atomic Script.

(** X1 on the call that times out on a lock held elsewhere. *)
Lemma acquire_only_adds_lockfile_witness :
  acquire os_busy 5 true lock_x fresh
  = Some (Raise AcquisitionError, lock_x_open, after_timeout) /\
  unlink_calls after_timeout = unlink_calls fresh /\
  files fresh ⊆ files after_timeout /\
  files after_timeout ⊆ {[ lockfile lock_x ]} ∪ files fresh.
Proof.
  assert (Hacq : acquire os_busy 5 true lock_x fresh
                 = Some (Raise AcquisitionError, lock_x_open, after_timeout))
    by (vm_compute; reflexivity).
  split; [exact Hacq|].
  destruct (acquire_only_adds_lockfile os_busy 5 true lock_x lock_x_open fresh
              after_timeout _ Hacq) as (_ & _ & _ & Hu & Hsub & Hsup & _).
  split; [exact Hu|]. split; [exact Hsub | exact Hsup].
Defined.

(** X2 on a handle that is acquired, released, acquired again, asked once
    more without blocking, and released. *)
Lemma run_ops_holds_file_witness :
  holds_file lock_x /\
  exists self' w',
    run_ops os_free
      [OpAcquire 1 true; OpRelease; OpAcquire 1 true; OpAcquire 1 false;
       OpRelease] lock_x fresh = Some (self', w') /\
    holds_file self' /\
    lockfile self' = lockfile lock_x.
Proof.
  assert (Hh : holds_file lock_x) by (intros H; discriminate H).
  split; [exact Hh|].
  destruct (run_ops os_free
              [OpAcquire 1 true; OpRelease; OpAcquire 1 true;
               OpAcquire 1 false; OpRelease] lock_x fresh)
    as [[self' w']|] eqn:Hrun; [|vm_compute in Hrun; discriminate Hrun].
  exists self', w'. split; [reflexivity|].
  destruct (run_ops_holds_file os_free _ lock_x self' fresh w' Hh Hrun)
    as (Hh' & Hp & _).
  split; [exact Hh' | exact Hp].
Defined.

(** X4 on a lock that is granted at the third attempt. *)
Lemma acquire_granted_witness :
  locked lock_forever = false /\
  can_sleep os_busy_twice lock_forever = true /\
  exists self' w',
    acquire os_busy_twice 3 true lock_forever fresh
    = Some (Return true, self', w') /\
    locked self' = true /\
    slept w' = [0.05%float; 0.05%float].
Proof.
  split; [reflexivity|]. split; [reflexivity|].
  destruct (acquire_granted os_busy_twice 2 lock_forever fresh eq_refl)
    as (self' & w' & Hacq & Hl & _ & Hs & _).
  - intros j Hj. left. reflexivity.
  - intros [|[|j]] Hj; [reflexivity | reflexivity | lia].
  - right. reflexivity.
  - reflexivity.
  - exists self', w'. split; [exact Hacq|]. split; [exact Hl | exact Hs].
Defined.

(** X5 on an operating system whose [fcntl.lockf] fails with [EIO]. *)
Lemma acquire_fatal_error_witness :
  locked lock_forever = false /\
  is_contention EIO = false /\
  exists self' w',
    acquire os_faulty 1 true lock_forever fresh
    = Some (Raise (IOError EIO), self', w') /\
    locked self' = false /\
    slept w' = [].
Proof.
  split; [reflexivity|]. split; [reflexivity|].
  destruct (acquire_fatal_error os_faulty 0 lock_forever fresh EIO eq_refl)
    as (self' & w' & Hacq & Hl & Hs & _).
  - intros j Hj. left. reflexivity.
  - intros j Hj. lia.
  - left. reflexivity.
  - reflexivity.
  - reflexivity.
  - exists self', w'. split; [exact Hacq|]. split; [exact Hl | exact Hs].
Defined.

(** X6 on [lock_x]. *)
Lemma acquire_release_round_trip_witness :
  acquire os_free 1 true lock_x fresh
  = Some (Return true, lock_x_held, after_acquire) /\
  exists w2, release os_free lock_x_held after_acquire = (Return true, lock_x, w2).
Proof.
  assert (Hacq : acquire os_free 1 true lock_x fresh
                 = Some (Return true, lock_x_held, after_acquire))
    by (vm_compute; reflexivity).
  split; [exact Hacq|].
  destruct (acquire_release_round_trip os_free 1 true lock_x lock_x_held fresh
              after_acquire Hacq) as (w2 & Hrel & Hsame).
  exists w2. now rewrite <- (Hsame eq_refl).
Defined.

(** X7 on a body that raises. *)
Lemma with_lock_releases_witness :
  acquire os_free 1 true lock_x fresh
  = Some (Return true, lock_x_held, after_acquire) /\
  exists w3,
    with_lock os_free 1 lock_x
      (fun w => (@Raise unit (AppError 7), w)) fresh
    = Some (Raise (AppError 7), set_lockfile None lock_x, w3).
Proof.
  assert (Hacq : acquire os_free 1 true lock_x fresh
                 = Some (Return true, lock_x_held, after_acquire))
    by (vm_compute; reflexivity).
  split; [exact Hacq|].
  destruct (with_lock_releases os_free 1 lock_x lock_x_held
              (fun w => (@Raise unit (AppError 7), w)) fresh after_acquire
              true Hacq) as (w3 & Hwith & _).
  exists w3. exact Hwith.
Defined.

(** X8 on a call during which SIGTERM arrives twice and the previous
    handler is a handler of the application that makes the process ignore
    SIGTERM: it is the disposition after the call. *)
Lemma call_restores_on_return_witness :
  func ignoring_app 21%Z (state (idle (PyHandler 3)))
  = (Return (PyInt 42), [Worked 21]) /\
  old_signal_handler
    (snd (fst (call ignoring_app Signal.init 21%Z [5; 9] (idle (PyHandler 3)))))
  = Some (PyHandler 3) /\
  snd (call ignoring_app Signal.init 21%Z [5; 9] (idle (PyHandler 3)))
  = {| sigterm := SIG_IGN; state := [Handled 3 SIGTERM 9; Worked 21] |}.
Proof.
  split; [reflexivity|].
  destruct (call_restores_on_return ignoring_app Signal.init 21%Z [5; 9]
              (idle (PyHandler 3)) (PyInt 42) [Worked 21] eq_refl)
    as [Ho Hs].
  split; [exact Ho | exact Hs].
Defined.

(** X9 on a call that raises, followed by one that returns while SIGTERM
    arrives: the process that had the default disposition is not ended. *)
Lemma call_after_raise_swallows_witness :
  func logging_app 0%Z (state (idle SIG_DFL)) = (Raise (AppError 1), [Worked 0]) /\
  func logging_app 21%Z [Worked 0] = (Return (PyInt 42), [Worked 21; Worked 0]) /\
  let '(r1, self1, p1) := call logging_app Signal.init 0%Z [] (idle SIG_DFL) in
  r1 = Raise (AppError 1) /\
  exists self2,
    call logging_app self1 21%Z [7] p1
    = (Return PyNone, self2,
       {| sigterm := GuardHandler; state := [Worked 21; Worked 0] |}).
Proof.
  split; [reflexivity|]. split; [reflexivity|].
  exact (call_after_raise_swallows logging_app Signal.init 0%Z 21%Z [] [7]
           (idle SIG_DFL) (AppError 1) (PyInt 42) [Worked 0]
           [Worked 21; Worked 0] eq_refl eq_refl).
Defined.

(** X11 on the settings file, opened in append mode, when the removal of
    the temporary file is refused. *)
Lemma atomic_writer_replaces_target_witness :
  disk !! temppath 4242 "settings.json" = None /\
  with_atomic_writer 4242 "settings.json" ModeA None (Some EACCES)
    (run_block {| writes := ["ne"; "w"]; raises := None |}) disk
  = (Return tt, <[ "settings.json" := "new" ]> disk).
Proof.
  assert (Hnone : disk !! temppath 4242 "settings.json" = None)
    by (vm_compute; reflexivity).
  split; [exact Hnone|].
  exact (atomic_writer_replaces_target 4242 "settings.json" ModeA ["ne"; "w"]
           disk (Some EACCES) Hnone).
Defined.

(** X14 on two ways of writing one text. *)
Lemma applescriptify_inj_witness :
  applescriptify ("g " +:+ q +:+ "py") = applescriptify ("g " +:+ (q +:+ "py")) /\
  "g " +:+ q +:+ "py" = "g " +:+ (q +:+ "py").
Proof.
  split; [reflexivity|].
  apply (applescriptify_inj ("g " +:+ q +:+ "py") ("g " +:+ (q +:+ "py"))).
  reflexivity.
Defined.

(** X16 on a value that holds two double quotes. *)
Lemma set_config_quotes_witness :
  bundle_or_env mac (Some "net.example.wf") = Some (Unicode "net.example.wf") /\
  is_ascii "greeting" = true /\
  is_ascii ("say " +:+ q +:+ "hi" +:+ q) = true /\
  is_ascii "net.example.wf" = true /\
  exists script,
    snd (set_config mac "greeting" ("say " +:+ q +:+ "hi" +:+ q)
           (Some "net.example.wf") true)
    = [osascript mac script] /\
    count_char dquote script = 12.
Proof.
  split; [reflexivity|]. split; [reflexivity|]. split; [reflexivity|].
  split; [reflexivity|].
  destruct (set_config_quotes mac "greeting" ("say " +:+ q +:+ "hi" +:+ q)
              (Some "net.example.wf") true (Unicode "net.example.wf")
              eq_refl eq_refl eq_refl eq_refl)
    as (script & Hran & Hcount).
  exists script. split; [exact Hran | exact Hcount].
Defined.

(** X17 on a trigger name that holds a double quote: the script has an
    odd number of them. *)
Lemma run_trigger_quotes_witness :
  is_ascii ("a" +:+ q +:+ "b") = true /\
  is_ascii "x" = true /\
  format_opt (bundle_or_env mac None) = Some "None" /\
  exists script,
    snd (run_trigger mac ("a" +:+ q +:+ "b") None (Some "x"))
    = [osascript mac script] /\
    count_char dquote script = 9.
Proof.
  split; [reflexivity|]. split; [reflexivity|]. split; [reflexivity|].
  destruct (run_trigger_quotes mac ("a" +:+ q +:+ "b") None (Some "x") "None"
              eq_refl)
    as (script & Hran & Hcount).
  - intros a Ha. inversion Ha. reflexivity.
  - reflexivity.
  - exists script. split; [exact Hran | exact Hcount].
Defined.

(** X18 on a host without the environment variable. *)
Lemma config_without_bundleid_witness :
  Script.truthy None = false /\
  getenv mac "alfred_workflow_bundleid" = None /\
  set_config mac "greeting" "hi" None false = (AttributeError, []) /\
  unset_config mac "greeting" None = (AttributeError, []).
Proof.
  split; [reflexivity|]. split; [reflexivity|].
  exact (config_without_bundleid mac "greeting" "hi" None false
           eq_refl eq_refl).
Defined.

(** X19 on a host where [mdfind] prints an empty line. *)
Lemma appinfo_not_found_witness :
  check_output mac_without (mdfind_cmd mac_without "Safari") = Return nl /\
  blank nl = true /\
  appinfo mac_without "Safari" = (Ok None, [mdfind_cmd mac_without "Safari"]).
Proof.
  split; [reflexivity|]. split; [reflexivity|].
  exact (appinfo_not_found mac_without "Safari" nl eq_refl eq_refl).
Defined.

(** X20 on a host where [mdfind] prints two paths. *)
Lemma appinfo_path_witness :
  blank ("/Applications/Safari.app" +:+ nl +:+
         "/Users/me/Applications/Safari.app" +:+ nl) = false /\
  exists app_path,
    snd (appinfo mac "Safari")
    = [mdfind_cmd mac "Safari"; mdls_cmd app_path] /\
    app_path = "/Applications/Safari.app".
Proof.
  split; [reflexivity|].
  destruct (appinfo_path mac "Safari"
              ("/Applications/Safari.app" +:+ nl +:+
               "/Users/me/Applications/Safari.app" +:+ nl) eq_refl eq_refl)
    as (app_path & Hran & Hpath & _).
  exists app_path. split; [exact Hran|]. rewrite Hpath. reflexivity.
Defined.

(** X21 on a process whose previous SIGTERM handler is handler 3 of the
    application: SIGTERM arrives at frames 5 and 9 while the function runs,
    and the handler is called afterwards with the signal number and the
    last frame. *)
Lemma call_redelivers_witness :
  func logging_app 21%Z (state (idle (PyHandler 3))) = (Return (PyInt 42), [Worked 21]) /\
  last [5; 9] = Some 9 /\
  call logging_app Signal.init 21%Z [5; 9] (idle (PyHandler 3))
  = (Return PyNone,
     {| _caught_signal := Some (SIGTERM, 9);
        old_signal_handler := Some (PyHandler 3) |},
     {| sigterm := PyHandler 3; state := [Handled 3 SIGTERM 9; Worked 21] |}).
Proof.
  split; [reflexivity|]. split; [reflexivity|].
  apply (call_redelivers logging_app Signal.init 21%Z [5; 9] 9
           (idle (PyHandler 3)) (PyInt 42) [Worked 21]); reflexivity.
Defined.


End ConcreteMore.
